(** * Entry/frame/tuplet traversal of the musx document model

    A shallow embedding of [details::GFrameHold::iterateEntries],
    [Entry::getNext], [TupletState], [details::TupletDef::calc*] and
    [details::GFrameHold::integrityCheck], together with the properties of
    the traversal engine: exact nested tuplet scaling, the end-entry test,
    the per-entry bookkeeping, chain exhaustion, and the error paths. *)

From Stdlib Require Import ZArith QArith Qreduction Lia List Bool.
From stdpp Require Import base option list gmap.

Local Open Scope Z_scope.

(* ------------------------------------------------------------------ *)
(** * Integer types *)
(* ------------------------------------------------------------------ *)

Definition Cmper := Z.        (* uint16_t key *)
Definition Edu := Z.          (* int32_t, 1024 per quarter note *)
Definition EntryNumber := Z.  (* entry identity; 0 is "no entry" *)
Definition LayerIndex := nat. (* unsigned layer index *)

(** Two's complement wrap-around of a 32-bit signed [int]. *)
Definition wrap32 (z : Z) : Z := (z + 2 ^ 31) mod 2 ^ 32 - 2 ^ 31.

(** [a * b] on C++ [int] operands. *)
Definition int_mul (a b : Z) : Z := wrap32 (a * b).

(** Modelled from the spec: [Entry::NoteType::Whole] is declared outside the
    sources at hand; with 1024 ticks per quarter note a whole note is 4096
    ticks. *)
Definition NoteType_Whole : Edu := 4096.

(** Modelled from the spec: the number of layer slots of a frame holder
    ([MAX_LAYERS]), layer indices 0..3. *)
Definition MAX_LAYERS : nat := 4.

(** Modelled from the spec: the part id of the score ([SCORE_PARTID]), the
    document-wide scope used for tuplet lookup. *)
Definition SCORE_PARTID : Cmper := 0.

(* ------------------------------------------------------------------ *)
(** * Exceptions and completions *)
(* ------------------------------------------------------------------ *)

(** The texts handed to [MUSX_INTEGRITY_ERROR], one constructor per message,
    carrying the numbers the message prints. *)
Inductive IntegrityMsg : Type :=
| EntryNextMissing (entnum next : EntryNumber)
| EntryPreviousMissing (entnum prev : EntryNumber)
| GFrameHoldNotIterable (staff meas : Cmper)
| GFrameHoldNonExistentFrame (staff meas frame : Cmper)
| GFrameHoldBothClefAndClefList (staff meas : Cmper)
| GFrameHoldNeitherClefNorClefList (staff meas : Cmper).

Inductive exception : Type :=
| invalid_argument                       (* std::invalid_argument *)
| integrity_error (msg : IntegrityMsg).  (* musx::dom::integrity_error *)

(** Code that either returns a value or throws. *)
Inductive Except (A : Type) : Type :=
| Normal (a : A)
| Threw (e : exception).

Arguments Normal {A} a.
Arguments Threw {A} e.

#[export] Instance Except_ret : MRet Except := fun A a => Normal a.

#[export] Instance Except_bind : MBind Except := fun A B k c =>
  match c with
  | Normal a => k a
  | Threw e => Threw e
  end.

(** How a traversal completes: it returns its boolean, it throws, or (the
    entry loop being run with a budget of passes) the budget is exhausted. *)
Inductive Completion : Type :=
| Returned (b : bool)
| Thrown (e : exception)
| OutOfFuel.

(* ------------------------------------------------------------------ *)
(** * Rational durations *)
(* ------------------------------------------------------------------ *)

(** Modelled from the spec: [util::Fraction] is declared outside the sources
    at hand.  The spec describes it as an exact fraction of signed integers,
    reduced by the GCD, whose construction requires a non-zero denominator
    and whose division by a zero fraction is an invalid-argument error.  A
    fraction is a [Q] kept in lowest terms (the denominator of a [Q] is
    positive, so the sign sits in the numerator). *)
Module Fraction.

Definition t := Q.

(** Lowest-terms fraction [n/d] for [d <> 0]. *)
Definition frac (n d : Z) : t :=
  Qred (match d with
        | Z0 => 0
        | Zpos p => n # p
        | Zneg p => (- n) # p
        end).

(** The two-argument constructor. *)
Definition make (n d : Z) : Except t :=
  if d =? 0 then Threw invalid_argument else Normal (frac n d).

(** Conversion from an integer, as in [util::Fraction x = 1]. *)
Definition of_int (n : Z) : t := frac n 1.

Definition add (a b : t) : t := Qred (a + b).
Definition sub (a b : t) : t := Qred (a - b).
Definition mul (a b : t) : t := Qred (a * b).

Definition is_zero (a : t) : bool := Qnum a =? 0.

Definition div (a b : t) : Except t :=
  if is_zero b then Threw invalid_argument else Normal (Qred (a / b)).

(** [a <= 0] *)
Definition le_zero (a : t) : bool := Qnum a <=? 0.

End Fraction.

(* ------------------------------------------------------------------ *)
(** * Entities *)
(* ------------------------------------------------------------------ *)

Record Entry : Type := {
  m_entnum : EntryNumber;
  m_prev : EntryNumber;
  m_next : EntryNumber;
  duration : Edu;
  isNote : bool
}.

(** One incarnation of [others::Frame]. *)
Record Frame : Type := {
  startEntry : EntryNumber;
  endEntry : EntryNumber;
  startTime : Edu
}.

(** [details::TupletDef], the fields read by the traversal. *)
Record TupletDef : Type := {
  displayNumber : Z;
  displayDuration : Edu;
  referenceNumber : Z;
  referenceDuration : Edu
}.

(** [details::GFrameHold]; [cmper1] is the staff and [cmper2] the measure. *)
Record GFrameHold : Type := {
  partId : Cmper;
  cmper1 : Cmper;
  cmper2 : Cmper;
  clefId : option Z;
  clefListId : Cmper;
  frames : list Cmper
}.

Definition GFrameHold_getStaff (g : GFrameHold) : Cmper := cmper1 g.
Definition GFrameHold_getMeasure (g : GFrameHold) : Cmper := cmper2 g.

(** Modelled from the spec: the entity store (the document's pools) is declared
    outside the sources at hand; the traversal uses [get<Entry>(identity)],
    [getArray<Frame>(part, frameId)] and [getArray<TupletDef>(part, entry)].
    Each pool is a finite map; an array lookup of an absent key is empty. *)
Record Document : Type := {
  entryPool : gmap Z Entry;
  framePool : gmap (Z * Z) (list Frame);
  tupletPool : gmap (Z * Z) (list TupletDef)
}.

Definition get_Entry (doc : Document) (n : EntryNumber) : option Entry :=
  entryPool doc !! n.

Definition getArray_Frame (doc : Document) (part frameId : Cmper) : list Frame :=
  default [] (framePool doc !! (part, frameId)).

Definition getArray_TupletDef (doc : Document) (part : Cmper) (entnum : EntryNumber)
  : list TupletDef :=
  default [] (tupletPool doc !! (part, entnum)).

(* ------------------------------------------------------------------ *)
(** * TupletDef *)
(* ------------------------------------------------------------------ *)

Definition calcReferenceDuration (t : TupletDef) : Except Fraction.t :=
  Fraction.make (int_mul (referenceNumber t) (referenceDuration t)) NoteType_Whole.

Definition calcDisplayDuration (t : TupletDef) : Except Fraction.t :=
  Fraction.make (int_mul (displayNumber t) (displayDuration t)) NoteType_Whole.

Definition calcRatio (t : TupletDef) : Except Fraction.t :=
  Fraction.make (int_mul (referenceNumber t) (referenceDuration t))
                (int_mul (displayNumber t) (displayDuration t)).

(** [calcReferenceDuration() / calcDisplayDuration()], the right-hand side of
    the exactness property: both operands are evaluated, then divided. *)
Definition referenceOverDisplay (t : TupletDef) : Except Fraction.t :=
  r ← calcReferenceDuration t;
  d ← calcDisplayDuration t;
  Fraction.div r d.

(* ------------------------------------------------------------------ *)
(** * Entry and EntryInfo *)
(* ------------------------------------------------------------------ *)

(** Modelled from the spec: [Entry::calcFraction] is declared outside the
    sources at hand; it is the nominal duration, ticks over the ticks of a
    whole note. *)
Definition calcFraction (e : Entry) : Fraction.t :=
  Fraction.frac (duration e) NoteType_Whole.

Record EntryInfo : Type := {
  m_staff : Cmper;
  m_measure : Cmper;
  m_layerIndex : LayerIndex;
  m_entry : Entry;
  elapsedDuration : Fraction.t;
  actualDuration : Fraction.t
}.

(* ------------------------------------------------------------------ *)
(** * The diagnostic sink *)
(* ------------------------------------------------------------------ *)

(** Modelled from the spec: the macro [MUSX_INTEGRITY_ERROR] is declared
    outside the sources at hand.  In strict mode every consistency violation
    is thrown at once; by default it is reported to the diagnostic sink and
    control returns to the caller. *)
Definition MUSX_INTEGRITY_ERROR (strict : bool) (msg : IntegrityMsg)
    (log : list IntegrityMsg) : Except unit * list IntegrityMsg :=
  if strict then (Threw (integrity_error msg), log)
  else (Normal tt, log ++ [msg]).

(* ------------------------------------------------------------------ *)
(** * TupletState *)
(* ------------------------------------------------------------------ *)

Record TupletState : Type := {
  remainingSymbolicDuration : Fraction.t;
  ratio : Fraction.t;
  tuplet : TupletDef
}.

(** The constructor [TupletState(t)]; the members are initialised in the order
    of their declaration.  The constructor reads the reference number and
    duration of the tuplet under their earlier names [inTheTimeOfNumber] and
    [inTheTimeOfDuration]. *)
Definition TupletState_new (t : TupletDef) : Except TupletState :=
  rem ← Fraction.make (int_mul (displayNumber t) (displayDuration t)) NoteType_Whole;
  r ← Fraction.make (int_mul (referenceNumber t) (referenceDuration t))
                    (int_mul (displayNumber t) (displayDuration t));
  Normal {| remainingSymbolicDuration := rem; ratio := r; tuplet := t |}.

(** [for (tuplet : tuplets) activeTuplets.emplace_back(tuplet);] *)
Fixpoint emplace_all (active : list TupletState) (tuplets : list TupletDef)
  : Except (list TupletState) :=
  match tuplets with
  | [] => Normal active
  | t :: ts => s ← TupletState_new t; emplace_all (active ++ [s]) ts
  end.

(** [cumulativeRatio = 1; for (t : activeTuplets) cumulativeRatio *= t.ratio;] *)
Definition cumulativeRatio (active : list TupletState) : Fraction.t :=
  fold_left (fun c t => Fraction.mul c (ratio t)) active (Fraction.of_int 1).

(** [for (t : activeTuplets) t.remainingSymbolicDuration -= actualDuration / t.ratio;] *)
Fixpoint decay_all (actual : Fraction.t) (active : list TupletState)
  : Except (list TupletState) :=
  match active with
  | [] => Normal []
  | t :: ts =>
      q ← Fraction.div actual (ratio t);
      ts' ← decay_all actual ts;
      Normal ({| remainingSymbolicDuration := Fraction.sub (remainingSymbolicDuration t) q;
                 ratio := ratio t;
                 tuplet := tuplet t |} :: ts')
  end.

(** The erase/remove_if idiom: the states with [remainingSymbolicDuration <= 0]
    are dropped and the others keep their order. *)
Definition erase_finished (active : list TupletState) : list TupletState :=
  List.filter (fun t => negb (Fraction.le_zero (remainingSymbolicDuration t))) active.

(** The locals of the entry loop. *)
Record LoopState : Type := {
  activeTuplets : list TupletState;
  actualElapsedDuration : Fraction.t
}.

(** One invocation of the callback: the [EntryInfo] handed over and, as ghost
    data, the list of active tuplets at that moment. *)
Record Emission : Type := {
  info : EntryInfo;
  activeAt : list TupletState
}.

(* ------------------------------------------------------------------ *)
(** * Traversal *)
(* ------------------------------------------------------------------ *)

Section Traversal.

(** [true] when consistency violations are thrown (strict mode). *)
Variable strict : bool.
(** The state the callback reaches by reference through its captures; the
    [std::function] object itself is passed by value. *)
Variable St : Type.
Variable iterator : EntryInfo -> St -> bool * St.
Variable doc : Document.

(** What a traversal can change outside its locals. *)
Record World : Type := {
  cb_state : St;
  diagnostics : list IntegrityMsg
}.

Definition report (msg : IntegrityMsg) (w : World) : Except unit * World :=
  let (c, log) := MUSX_INTEGRITY_ERROR strict msg (diagnostics w) in
  (c, {| cb_state := cb_state w; diagnostics := log |}).

Definition Entry_getNext (e : Entry) (w : World) : Except (option Entry) * World :=
  if m_next e =? 0 then (Normal None, w)
  else
    match get_Entry doc (m_next e) with
    | Some retval => (Normal (Some retval), w)
    | None =>
        match report (EntryNextMissing (m_entnum e) (m_next e)) w with
        | (Normal _, w') => (Normal None, w')
        | (Threw x, w') => (Threw x, w')
        end
    end.

Definition Entry_getPrevious (e : Entry) (w : World) : Except (option Entry) * World :=
  if m_prev e =? 0 then (Normal None, w)
  else
    match get_Entry doc (m_prev e) with
    | Some retval => (Normal (Some retval), w)
    | None =>
        match report (EntryPreviousMissing (m_entnum e) (m_prev e)) w with
        | (Normal _, w') => (Normal None, w')
        | (Threw x, w') => (Threw x, w')
        end
    end.

(** The result of a traversal: how it completed, the world afterwards, the
    callback invocations in order, and the loop's locals when the function
    returned out of the loop ([None] when the loop was not reached or was
    left by an exception). *)
Record Result : Type := {
  completion : Completion;
  world : World;
  emitted : list Emission;
  final : option LoopState
}.

Definition emit (em : Emission) (r : Result) : Result :=
  {| completion := completion r; world := world r;
     emitted := em :: emitted r; final := final r |}.

(** The [EntryInfo] built for [nextEntry] once the tuplets that start at it
    have been pushed, paired with the active tuplets. *)
Definition emission (g : GFrameHold) (layerIndex : LayerIndex) (nextEntry : Entry)
    (ls : LoopState) (active : list TupletState) : Emission :=
  {| info :=
       {| m_staff := GFrameHold_getStaff g; m_measure := GFrameHold_getMeasure g;
          m_layerIndex := layerIndex; m_entry := nextEntry;
          elapsedDuration := actualElapsedDuration ls;
          actualDuration :=
            Fraction.mul (calcFraction nextEntry) (cumulativeRatio active) |};
     activeAt := active |}.

(** One pass through the body of the entry loop either leaves the function
    or goes on with the next entry. *)
Inductive Step : Type :=
| Leave (r : Result)
| Continue (em : Emission) (next : Entry) (ls' : LoopState) (w' : World).

(** The world after the callback has run and left the state [st']. *)
Definition afterCall (w : World) (st' : St) : World :=
  {| cb_state := st'; diagnostics := diagnostics w |}.

(** The locals at the moment the callback is invoked. *)
Definition atEmission (ls : LoopState) (active : list TupletState) : LoopState :=
  {| activeTuplets := active; actualElapsedDuration := actualElapsedDuration ls |}.

(** The locals after [actualElapsedDuration += actualDuration], the decay of
    the active tuplets to [decayed], and the erasure of the finished ones. *)
Definition accounted (ls : LoopState) (actual : Fraction.t)
    (decayed : list TupletState) : LoopState :=
  {| activeTuplets := erase_finished decayed;
     actualElapsedDuration := Fraction.add (actualElapsedDuration ls) actual |}.

Definition loopBody (g : GFrameHold) (layerIndex : LayerIndex) (frame : Frame)
    (nextEntry : Entry) (ls : LoopState) (w : World) : Step :=
  let tuplets := getArray_TupletDef doc SCORE_PARTID (m_entnum nextEntry) in
  match emplace_all (activeTuplets ls) tuplets with
  | Normal active =>
    let em := emission g layerIndex nextEntry ls active in
    let actual := actualDuration (info em) in
    let (continue, st') := iterator (info em) (cb_state w) in
    let w1 := afterCall w st' in
    if negb continue then
      Leave {| completion := Returned false; world := w1; emitted := [em];
               final := Some (atEmission ls active) |}
    else if m_entnum nextEntry =? endEntry frame then
      Leave {| completion := Returned true; world := w1; emitted := [em];
               final := Some (atEmission ls active) |}
    else
      match decay_all actual active with
      | Normal decayed =>
        match Entry_getNext nextEntry w1 with
        | (Normal (Some next), w2) => Continue em next (accounted ls actual decayed) w2
        | (Normal None, w2) =>
            Leave {| completion := Returned true; world := w2; emitted := [em];
                     final := Some (accounted ls actual decayed) |}
        | (Threw x, w2) =>
            Leave {| completion := Thrown x; world := w2; emitted := [em];
                     final := None |}
        end
      | Threw x =>
        Leave {| completion := Thrown x; world := w1; emitted := [em]; final := None |}
      end
  | Threw x =>
      Leave {| completion := Thrown x; world := w; emitted := []; final := None |}
  end.

(** The seven ways one pass can go, as a relation between the state before
    the pass and its step. *)
Inductive Pass (g : GFrameHold) (layerIndex : LayerIndex) (frame : Frame)
    (e : Entry) (ls : LoopState) (w : World) : Step -> Prop :=
| Pass_tuplet_throws x :
    emplace_all (activeTuplets ls) (getArray_TupletDef doc SCORE_PARTID (m_entnum e))
      = Threw x ->
    Pass g layerIndex frame e ls w
      (Leave {| completion := Thrown x; world := w; emitted := []; final := None |})
| Pass_halted active st' :
    let em := emission g layerIndex e ls active in
    emplace_all (activeTuplets ls) (getArray_TupletDef doc SCORE_PARTID (m_entnum e))
      = Normal active ->
    iterator (info em) (cb_state w) = (false, st') ->
    Pass g layerIndex frame e ls w
      (Leave {| completion := Returned false; world := afterCall w st';
                emitted := [em]; final := Some (atEmission ls active) |})
| Pass_end_entry active st' :
    let em := emission g layerIndex e ls active in
    emplace_all (activeTuplets ls) (getArray_TupletDef doc SCORE_PARTID (m_entnum e))
      = Normal active ->
    iterator (info em) (cb_state w) = (true, st') ->
    m_entnum e = endEntry frame ->
    Pass g layerIndex frame e ls w
      (Leave {| completion := Returned true; world := afterCall w st';
                emitted := [em]; final := Some (atEmission ls active) |})
| Pass_decay_throws active st' x :
    let em := emission g layerIndex e ls active in
    emplace_all (activeTuplets ls) (getArray_TupletDef doc SCORE_PARTID (m_entnum e))
      = Normal active ->
    iterator (info em) (cb_state w) = (true, st') ->
    m_entnum e <> endEntry frame ->
    decay_all (actualDuration (info em)) active = Threw x ->
    Pass g layerIndex frame e ls w
      (Leave {| completion := Thrown x; world := afterCall w st';
                emitted := [em]; final := None |})
| Pass_chain_ends active st' decayed w2 :
    let em := emission g layerIndex e ls active in
    emplace_all (activeTuplets ls) (getArray_TupletDef doc SCORE_PARTID (m_entnum e))
      = Normal active ->
    iterator (info em) (cb_state w) = (true, st') ->
    m_entnum e <> endEntry frame ->
    decay_all (actualDuration (info em)) active = Normal decayed ->
    Entry_getNext e (afterCall w st') = (Normal None, w2) ->
    Pass g layerIndex frame e ls w
      (Leave {| completion := Returned true; world := w2; emitted := [em];
                final := Some (accounted ls (actualDuration (info em)) decayed) |})
| Pass_next_throws active st' decayed x w2 :
    let em := emission g layerIndex e ls active in
    emplace_all (activeTuplets ls) (getArray_TupletDef doc SCORE_PARTID (m_entnum e))
      = Normal active ->
    iterator (info em) (cb_state w) = (true, st') ->
    m_entnum e <> endEntry frame ->
    decay_all (actualDuration (info em)) active = Normal decayed ->
    Entry_getNext e (afterCall w st') = (Threw x, w2) ->
    Pass g layerIndex frame e ls w
      (Leave {| completion := Thrown x; world := w2; emitted := [em]; final := None |})
| Pass_continues active st' decayed next w2 :
    let em := emission g layerIndex e ls active in
    emplace_all (activeTuplets ls) (getArray_TupletDef doc SCORE_PARTID (m_entnum e))
      = Normal active ->
    iterator (info em) (cb_state w) = (true, st') ->
    m_entnum e <> endEntry frame ->
    decay_all (actualDuration (info em)) active = Normal decayed ->
    Entry_getNext e (afterCall w st') = (Normal (Some next), w2) ->
    Pass g layerIndex frame e ls w
      (Continue em next (accounted ls (actualDuration (info em)) decayed) w2).

(** The [for (nextEntry = firstEntry; nextEntry; nextEntry = nextEntry->getNext())]
    loop; [fuel] bounds the number of passes. *)
Fixpoint entryLoop (fuel : nat) (g : GFrameHold) (layerIndex : LayerIndex)
    (frame : Frame) (nextEntry : Entry) (ls : LoopState) (w : World) : Result :=
  match fuel with
  | O => {| completion := OutOfFuel; world := w; emitted := []; final := None |}
  | S fuel' =>
    match loopBody g layerIndex frame nextEntry ls w with
    | Leave r => r
    | Continue em next ls' w' =>
        emit em (entryLoop fuel' g layerIndex frame next ls' w')
    end
  end.

(** The pre-roll: [for (f : frameIncis) actualElapsedDuration += Fraction(f->startTime, Whole)]. *)
Definition startTimes (frameIncis : list Frame) : Fraction.t :=
  fold_left (fun acc f => Fraction.add acc (Fraction.frac (startTime f) NoteType_Whole))
            frameIncis (Fraction.of_int 0).

(** The lambda that picks the first incarnation with a start entry. *)
Definition findStartFrame (frameIncis : list Frame) : option Frame :=
  List.find (fun f => negb (startEntry f =? 0)) frameIncis.

Definition leave (c : Completion) (w : World) : Result :=
  {| completion := c; world := w; emitted := []; final := None |}.

(** [details::GFrameHold::iterateEntries(layerIndex, iterator)] *)
Definition iterateEntries (fuel : nat) (g : GFrameHold) (layerIndex : LayerIndex)
    (w : World) : Result :=
  if (length (frames g) <=? layerIndex)%nat then leave (Thrown invalid_argument) w
  else
    let frameId := nth layerIndex (frames g) 0 in
    if frameId =? 0 then leave (Returned true) w
    else
      let frameIncis := getArray_Frame doc (partId g) frameId in
      match findStartFrame frameIncis with
      | Some frame =>
          match get_Entry doc (startEntry frame) with
          | None =>
              match report (GFrameHoldNotIterable (GFrameHold_getStaff g)
                                                  (GFrameHold_getMeasure g)) w with
              | (Normal _, w') => leave (Returned true) w'
              | (Threw x, w') => leave (Thrown x) w'
              end
          | Some firstEntry =>
              entryLoop fuel g layerIndex frame firstEntry
                {| activeTuplets := []; actualElapsedDuration := startTimes frameIncis |} w
          end
      | None =>
          match report (GFrameHoldNonExistentFrame (GFrameHold_getStaff g)
                          (GFrameHold_getMeasure g) frameId) w with
          | (Normal _, w') => leave (Returned true) w'
          | (Threw x, w') => leave (Thrown x) w'
          end
      end.

End Traversal.

Arguments cb_state {St} _.
Arguments diagnostics {St} _.
Arguments completion {St} _.
Arguments world {St} _.
Arguments emitted {St} _.
Arguments final {St} _.
Arguments Leave {St} r.
Arguments Continue {St} em next ls' w'.
Arguments afterCall {St} w st'.
Arguments emit {St} em r.
Arguments leave {St} c w.

(* ------------------------------------------------------------------ *)
(** * Integrity check of a frame holder *)
(* ------------------------------------------------------------------ *)

Section IntegrityCheck.

Variable strict : bool.

(** [DetailsBase::integrityCheck] is declared outside the sources at hand and
    is taken as given: it maps the sink before to its completion and the
    sink after. *)
Variable DetailsBase_integrityCheck :
  GFrameHold -> list IntegrityMsg -> Except unit * list IntegrityMsg.

Definition has_value {A} (o : option A) : bool :=
  match o with Some _ => true | None => false end.

Definition GFrameHold_integrityCheck (g : GFrameHold) (log : list IntegrityMsg)
  : Except unit * list IntegrityMsg :=
  match DetailsBase_integrityCheck g log with
  | (Normal _, log0) =>
      match (if negb (clefListId g =? 0) && has_value (clefId g)
             then MUSX_INTEGRITY_ERROR strict
                    (GFrameHoldBothClefAndClefList (cmper1 g) (cmper2 g)) log0
             else (Normal tt, log0)) with
      | (Normal _, log1) =>
          if (clefListId g =? 0) && negb (has_value (clefId g))
          then MUSX_INTEGRITY_ERROR strict
                 (GFrameHoldNeitherClefNorClefList (cmper1 g) (cmper2 g)) log1
          else (Normal tt, log1)
      | other => other
      end
  | other => other
  end.

End IntegrityCheck.

(* ------------------------------------------------------------------ *)
(** * Vocabulary of the statements *)
(* ------------------------------------------------------------------ *)

Definition Qsum (l : list Q) : Q := fold_right Qplus 0%Q l.

(** The state of a tuplet [s] after an entry of actual duration [actual] was
    accounted for: same tuplet and ratio, the remaining symbolic duration
    lowered by [actual / ratio], with a ratio that can be divided by. *)
Definition decayed_by (actual : Q) (s s' : TupletState) : Prop :=
  tuplet s' = tuplet s /\ ratio s' = ratio s /\ ~ (ratio s == 0)%Q /\
  remainingSymbolicDuration s' = Qred (remainingSymbolicDuration s - actual / ratio s).

(** The tuplet states that still have symbolic duration left. *)
Definition unfinished (l : list TupletState) : list TupletState :=
  List.filter (fun s => negb (Qle_bool (remainingSymbolicDuration s) 0)) l.

(** [s] is the state constructed for the tuplet definition [t]. *)
Definition starts (t : TupletDef) (s : TupletState) : Prop :=
  TupletState_new t = Normal s.


(** What relates a callback invocation [em1] to the next one [em2]: [em1] was
    not for the end entry; the elapsed duration grew by the actual duration
    of [em1]; the active tuplets of [em2] are those of [em1], decayed, without
    the finished ones, followed by the tuplets that start at the entry of
    [em2]. *)
Definition follows (doc : Document) (frame : Frame) (em1 em2 : Emission) : Prop :=
  m_entnum (m_entry (info em1)) <> endEntry frame /\
  elapsedDuration (info em2)
    = Qred (elapsedDuration (info em1) + actualDuration (info em1)) /\
  exists decayed news,
    Forall2 (decayed_by (actualDuration (info em1))) (activeAt em1) decayed /\
    Forall2 starts
      (getArray_TupletDef doc SCORE_PARTID (m_entnum (m_entry (info em2)))) news /\
    activeAt em2 = unfinished decayed ++ news.

(** The next-chain from [e] ends [k] entries after [e]: the last entry has no
    next reference, or one that the entry pool does not resolve. *)
Inductive ChainEnds (doc : Document) : Entry -> nat -> Prop :=
| ChainEnds_last e :
    m_next e = 0 \/ get_Entry doc (m_next e) = None ->
    ChainEnds doc e 0
| ChainEnds_step e e' k :
    m_next e <> 0 -> get_Entry doc (m_next e) = Some e' ->
    ChainEnds doc e' k ->
    ChainEnds doc e (S k).

(** The next-chain from [e] runs out at [last], [k] entries after [e], and no
    entry on the way carries the number [endEnt]; [dangling] tells whether
    the next reference of [last] is non-zero (and unresolved) or zero. *)
Inductive RunsOut (doc : Document) (endEnt : EntryNumber)
  : Entry -> nat -> Entry -> bool -> Prop :=
| RunsOut_null e :
    m_entnum e <> endEnt -> m_next e = 0 ->
    RunsOut doc endEnt e 0 e false
| RunsOut_dangling e :
    m_entnum e <> endEnt -> m_next e <> 0 -> get_Entry doc (m_next e) = None ->
    RunsOut doc endEnt e 0 e true
| RunsOut_step e e' k last d :
    m_entnum e <> endEnt -> m_next e <> 0 -> get_Entry doc (m_next e) = Some e' ->
    RunsOut doc endEnt e' k last d ->
    RunsOut doc endEnt e (S k) last d.

(** Every tuplet definition of the document has a non-zero display product and
    a non-zero reference product, so that its state can be constructed and
    its ratio divided by. *)
Definition tuplets_divisible (doc : Document) : Prop :=
  forall part entnum t,
    In t (getArray_TupletDef doc part entnum) ->
    int_mul (displayNumber t) (displayDuration t) <> 0 /\
    int_mul (referenceNumber t) (referenceDuration t) <> 0.

(** A consistency violation [msg] was reported by a check that started with
    the sink [log0]: thrown in strict mode, appended to the sink otherwise. *)
Definition violation_reported (strict : bool) (msg : IntegrityMsg)
    (log0 : list IntegrityMsg) (res : Except unit * list IntegrityMsg) : Prop :=
  if strict then res = (Threw (integrity_error msg), log0)
  else res = (Normal tt, log0 ++ [msg]).

(* ------------------------------------------------------------------ *)
(** * Sample documents *)
(* ------------------------------------------------------------------ *)

Module Samples.

Definition note (n next : EntryNumber) (d : Edu) : Entry :=
  {| m_entnum := n; m_prev := 0; m_next := next; duration := d; isNote := true |}.

(** Three eighths in the time of two. *)
Definition triplet : TupletDef :=
  {| displayNumber := 3; displayDuration := 512;
     referenceNumber := 2; referenceDuration := 512 |}.

(** Five sixteenths in the time of four. *)
Definition quintuplet : TupletDef :=
  {| displayNumber := 5; displayDuration := 256;
     referenceNumber := 4; referenceDuration := 256 |}.

Definition primary (s e : EntryNumber) : Frame :=
  {| startEntry := s; endEntry := e; startTime := 0 |}.

(** An incarnation that only carries a pickup of a quarter note. *)
Definition pickup : Frame :=
  {| startEntry := 0; endEntry := 0; startTime := 1024 |}.

(** Frame 7 holds entries 1..4; a triplet and a quintuplet both start at
    entry 1; the second incarnation carries a pickup. *)
Definition nested : Document :=
  {| entryPool := list_to_map [(1, note 1 2 512); (2, note 2 3 512);
                               (3, note 3 4 512); (4, note 4 0 1024)];
     framePool := list_to_map [((0, 7), [primary 1 4; pickup])];
     tupletPool := list_to_map [((0, 1), [triplet; quintuplet])] |}.

(** Frame 7 holds three eighths under a triplet, then a quarter. *)
Definition tripletBar : Document :=
  {| entryPool := list_to_map [(1, note 1 2 512); (2, note 2 3 512);
                               (3, note 3 4 512); (4, note 4 0 1024)];
     framePool := list_to_map [((0, 7), [primary 1 4])];
     tupletPool := list_to_map [((0, 1), [triplet])] |}.

(** Frame 7 starts at entry 1 and records end entry 2, but entry 1 has no
    next entry. *)
Definition truncated : Document :=
  {| entryPool := list_to_map [(1, note 1 0 4096)];
     framePool := list_to_map [((0, 7), [primary 1 2])];
     tupletPool := ∅ |}.

(** As [truncated], but the next reference of entry 1 points to an entry
    that is not in the pool. *)
Definition dangling : Document :=
  {| entryPool := list_to_map [(1, note 1 9 4096)];
     framePool := list_to_map [((0, 7), [primary 1 2])];
     tupletPool := ∅ |}.

(** As [truncated], but entry 1 names itself as its next entry. *)
Definition cyclic : Document :=
  {| entryPool := list_to_map [(1, note 1 1 4096)];
     framePool := list_to_map [((0, 7), [primary 1 2])];
     tupletPool := ∅ |}.

(** Frame 7 has incarnations, none of which carries a start entry. *)
Definition startless : Document :=
  {| entryPool := list_to_map [(1, note 1 0 4096)];
     framePool := list_to_map [((0, 7), [pickup])];
     tupletPool := ∅ |}.

(** Staff 1, measure 1, layer 1 points to frame 7. *)
Definition holder : GFrameHold :=
  {| partId := 0; cmper1 := 1; cmper2 := 1; clefId := Some 0; clefListId := 0;
     frames := [7; 0; 0; 0] |}.

Definition bothClefs : GFrameHold :=
  {| partId := 0; cmper1 := 3; cmper2 := 915; clefId := Some 0; clefListId := 123;
     frames := [21240; 0; 0; 0] |}.

Definition noClefs : GFrameHold :=
  {| partId := 0; cmper1 := 3; cmper2 := 915; clefId := None; clefListId := 0;
     frames := [21240; 0; 0; 0] |}.

Definition clefList : GFrameHold :=
  {| partId := 0; cmper1 := 3; cmper2 := 1129; clefId := None; clefListId := 1234;
     frames := [0; 0; 0; 22911] |}.

(** A callback that counts its invocations and always continues. *)
Definition counting (_ : EntryInfo) (n : nat) : bool * nat := (true, S n).

Definition fresh : World nat := {| cb_state := O; diagnostics := [] |}.

(** A base check that reports nothing. *)
Definition quietBase (_ : GFrameHold) (log : list IntegrityMsg)
  : Except unit * list IntegrityMsg := (Normal tt, log).

(** Layer 1 of [holder], traversed in the document [doc]. *)
Definition run (strict : bool) (doc : Document) : Result nat :=
  iterateEntries strict nat counting doc 10 holder 0%nat fresh.

(** A placeholder for positions past the end of a trace. *)
Definition blank : Emission :=
  emission holder 0%nat (note 0 0 0)
    {| activeTuplets := []; actualElapsedDuration := 0%Q |} [].

(** The [i]-th callback invocation of a run. *)
Definition invocation (r : Result nat) (i : nat) : Emission :=
  nth i (emitted r) blank.

(** A tuplet whose display number is zero. *)
Definition emptyTuplet : TupletDef :=
  {| displayNumber := 0; displayDuration := 512;
     referenceNumber := 2; referenceDuration := 512 |}.

End Samples.

(* ------------------------------------------------------------------ *)
(** * ScoreFileEncoder *)
(* ------------------------------------------------------------------ *)

From stdpp Require Import strings.

Local Open Scope Z_scope.

Module ScoreFileEncoder.

Definition INITIAL_STATE : Z := 0x28006D45.
Definition RESET_LIMIT : Z := 0x20000.

(** [state = state * 0x41c64e6d + 0x3039] on [uint32_t]. *)
Definition advance (state : Z) : Z := (state * 0x41c64e6d + 0x3039) mod 2 ^ 32.

(** [uint16_t upper = state >> 16; uint8_t c = upper + upper / 255;] *)
Definition keyByte (state : Z) : Z :=
  let upper := Z.shiftr state 16 mod 2 ^ 16 in
  (upper + upper / 255) mod 2 ^ 8.

(** The loop of [cryptBuffer] from index [i] on, entered with [state]; a
    buffer element is a [uint8_t], and [buffer[i] ^= c] stores the low eight
    bits. *)
Fixpoint cryptFrom (i : Z) (state : Z) (buffer : list Z) : list Z :=
  match buffer with
  | [] => []
  | b :: rest =>
      let state0 := if i mod RESET_LIMIT =? 0 then INITIAL_STATE else state in
      let state1 := advance state0 in
      Z.lxor b (keyByte state1) mod 2 ^ 8 :: cryptFrom (i + 1) state1 rest
  end.

Definition cryptBuffer (buffer : list Z) : list Z :=
  cryptFrom 0 INITIAL_STATE buffer.

(** Every element is a [uint8_t]. *)
Definition is_bytes (buffer : list Z) : Prop :=
  Forall (fun b => 0 <= b < 2 ^ 8) buffer.

(** The key byte used at a position whose offset into its block of
    [RESET_LIMIT] bytes is [k]. *)
Definition keyAt (k : nat) : Z := keyByte (Nat.iter (S k) advance INITIAL_STATE).

End ScoreFileEncoder.

(** The state a pass at index [i] starts from, once the reset has been
    applied, is [INITIAL_STATE] advanced [i mod RESET_LIMIT] times. *)
Definition on_track (i state : Z) : Prop :=
  i mod ScoreFileEncoder.RESET_LIMIT <> 0 ->
  state = Nat.iter (Z.to_nat (i mod ScoreFileEncoder.RESET_LIMIT))
                   ScoreFileEncoder.advance ScoreFileEncoder.INITIAL_STATE.

(* ------------------------------------------------------------------ *)
(** * Entry: note type and augmentation dots *)
(* ------------------------------------------------------------------ *)

(** [while (value > 1) { value >>= 1; msb <<= 1; }] for a positive [value]:
    shifting a positive binary number right drops its last digit. *)
Fixpoint msbLoop (value : positive) (msb : Z) : Z :=
  match value with
  | xH => msb
  | xO v | xI v => msbLoop v (Z.shiftl msb 1)
  end.

(** [Entry::calcNoteType]; the note type is returned as its tick value. *)
Definition calcNoteType (e : Entry) : Except Z :=
  if (duration e <=? 1) || (0x10000 <=? duration e) then Threw invalid_argument
  else Normal (match duration e with
               | Zpos value => msbLoop value 1
               | _ => 1
               end).

(** [for (...; duration & msb; msb >>= 1) count++;] for a positive [msb]; once
    [msb] has become 0 the test [duration & msb] fails. *)
Fixpoint dotsLoop (dur : Z) (msb : positive) : Z :=
  if Z.land dur (Zpos msb) =? 0 then 0
  else 1 + match msb with
           | xH => 0
           | xO m | xI m => dotsLoop dur m
           end.

(** The positive number whose only set bit is bit [j]. *)
Fixpoint bitOf (j : nat) : positive :=
  match j with
  | O => xH
  | S j' => xO (bitOf j')
  end.

(** [Entry::calcAugmentationDots] *)
Definition calcAugmentationDots (e : Entry) : Except Z :=
  noteType ← calcNoteType e;
  Normal (match Z.shiftr noteType 1 with
          | Zpos msb => dotsLoop (duration e) msb
          | _ => 0
          end).

(* ------------------------------------------------------------------ *)
(** * Traversal of all layers *)
(* ------------------------------------------------------------------ *)

Section AllLayers.

Variable strict : bool.
Variable St : Type.
Variable iterator : EntryInfo -> St -> bool * St.
Variable doc : Document.

(** The [for (layerIndex = 0; layerIndex < frames.size(); layerIndex++)] loop
    from [layerIndex] on, with [remaining] layers to go; every layer is
    traversed with the budget [fuel]. *)
Fixpoint iterateLayers (fuel : nat) (g : GFrameHold) (layerIndex : LayerIndex)
    (remaining : nat) (w : World St) : Result St :=
  match remaining with
  | O => leave (Returned true) w
  | S remaining' =>
      let r := iterateEntries strict St iterator doc fuel g layerIndex w in
      match completion r with
      | Returned true =>
          let r' := iterateLayers fuel g (S layerIndex) remaining' (world r) in
          {| completion := completion r'; world := world r';
             emitted := emitted r ++ emitted r'; final := None |}
      | c => {| completion := c; world := world r; emitted := emitted r; final := None |}
      end
  end.

(** [details::GFrameHold::iterateEntries(iterator)] *)
Definition iterateAllEntries (fuel : nat) (g : GFrameHold) (w : World St) : Result St :=
  iterateLayers fuel g 0%nat (length (frames g)) w.

(** The callback state after the invocations [trace], started from [st]. *)
Definition stateAfter (trace : list Emission) (st : St) : St :=
  fold_left (fun s em => snd (iterator (info em) s)) trace st.

End AllLayers.

(* ------------------------------------------------------------------ *)
(** * FontInfo *)
(* ------------------------------------------------------------------ *)

(** [others::FontDefinition], with the key it is stored under. *)
Record FontDefinition : Type := {
  fontDef_cmper : Cmper;
  charsetBank : string;
  charsetVal : Z;
  pitch : Z;
  family : Z;
  name : string
}.

Record FontInfo : Type := {
  fontInfo_partId : Cmper;
  fontId : Cmper;
  fontSize : Z;
  bold : bool;
  italic : bool;
  underline : bool;
  strikeout : bool;
  absolute : bool;
  hidden : bool
}.

(** Modelled from the spec: the pool of font definitions is part of the entity
    store, declared outside the sources at hand.  For every part it lists
    the definitions in pool order; [get] finds the one stored under a key. *)
Definition FontPool := gmap Z (list FontDefinition).

Definition getArray_FontDefinition (pool : FontPool) (part : Cmper) : list FontDefinition :=
  default [] (pool !! part).

Definition get_FontDefinition (pool : FontPool) (part cmper : Cmper)
  : option FontDefinition :=
  List.find (fun d => fontDef_cmper d =? cmper) (getArray_FontDefinition pool part).

(** [FontInfo::getName] *)
Definition FontInfo_getName (pool : FontPool) (f : FontInfo) : Except string :=
  match get_FontDefinition pool (fontInfo_partId f) (fontId f) with
  | Some fontDef => Normal (name fontDef)
  | None => Threw invalid_argument
  end.

Definition with_fontId (f : FontInfo) (id : Cmper) : FontInfo :=
  {| fontInfo_partId := fontInfo_partId f; fontId := id; fontSize := fontSize f;
     bold := bold f; italic := italic f; underline := underline f;
     strikeout := strikeout f; absolute := absolute f; hidden := hidden f |}.

(** [FontInfo::setFontIdByName]: the object after the call, or the exception. *)
Definition FontInfo_setFontIdByName (pool : FontPool) (f : FontInfo) (n : string)
  : Except FontInfo :=
  match List.find (fun d => String.eqb (name d) n)
                  (getArray_FontDefinition pool (fontInfo_partId f)) with
  | Some fontDef => Normal (with_fontId f (fontDef_cmper fontDef))
  | None => Threw invalid_argument
  end.

(* ------------------------------------------------------------------ *)
(** * InstrumentUsed *)
(* ------------------------------------------------------------------ *)

Record InstrumentUsed : Type := {
  iu_partId : Cmper;
  staffId : Cmper
}.

(** What an element access [v[index]] of a vector does. *)
Inductive Access (A : Type) : Type :=
| Element (a : A)
| PastTheEnd.

Arguments Element {A} a.
Arguments PastTheEnd {A}.

Section StaffAtIndex.

(** [others::Staff] and its pool are declared outside the sources at hand and
    are taken as given. *)
Variable Staff : Type.
Variable get_Staff : Cmper -> Cmper -> option Staff.

(** [others::InstrumentUsed::getStaffAtIndex]; [index] is a [Cmper], hence
    not negative.  The result is the returned pointer, unless the function
    indexes the vector outside its elements. *)
Definition getStaffAtIndex (iuArray : list InstrumentUsed) (index : nat)
  : Access (option Staff) :=
  if (length iuArray <? index)%nat then Element None
  else
    match nth_error iuArray index with
    | Some iuItem => Element (get_Staff (iu_partId iuItem) (staffId iuItem))
    | None => PastTheEnd
    end.

End StaffAtIndex.

(* ------------------------------------------------------------------ *)
(** * More sample data *)
(* ------------------------------------------------------------------ *)

Module MoreSamples.

(** Two layers: frame 7 in layer 1 and frame 8 in layer 3. *)
Definition twoLayers : Document :=
  {| entryPool := list_to_map [(1, Samples.note 1 2 2048); (2, Samples.note 2 0 2048);
                               (5, Samples.note 5 0 4096)];
     framePool := list_to_map [((0, 7), [Samples.primary 1 2]);
                               ((0, 8), [Samples.primary 5 5])];
     tupletPool := ∅ |}.

Definition twoLayerHolder : GFrameHold :=
  {| partId := 0; cmper1 := 2; cmper2 := 9; clefId := Some 0; clefListId := 0;
     frames := [7; 0; 8; 0] |}.

(** Frame 7 names start entry 1, which the pool does not hold. *)
Definition entryless : Document :=
  {| entryPool := ∅;
     framePool := list_to_map [((0, 1), [Samples.primary 1 2])];
     tupletPool := ∅ |}.

Definition entrylessHolder : GFrameHold :=
  {| partId := 0; cmper1 := 3; cmper2 := 915; clefId := Some 0; clefListId := 0;
     frames := [1; 0; 0; 0] |}.

(** A callback that stops at once. *)
Definition refusing (_ : EntryInfo) (n : nat) : bool * nat := (false, S n).

(** A callback that continues until it has seen two entries. *)
Definition twoOnly (_ : EntryInfo) (n : nat) : bool * nat := ((n <? 1)%nat, S n).

Definition font (k : Cmper) (n : string) : FontDefinition :=
  {| fontDef_cmper := k; charsetBank := "Mac"; charsetVal := 4095;
     pitch := 0; family := 0; name := n |}.

Definition fonts : FontPool :=
  list_to_map [(0, [font 1 "Maestro"; font 2 "Times New Roman"; font 3 "Maestro"])].

Definition plainFont : FontInfo :=
  {| fontInfo_partId := 0; fontId := 0; fontSize := 12; bold := false; italic := false;
     underline := false; strikeout := false; absolute := false; hidden := false |}.

Definition instruments : list InstrumentUsed :=
  [ {| iu_partId := 0; staffId := 1 |}; {| iu_partId := 0; staffId := 2 |};
    {| iu_partId := 0; staffId := 3 |} ].

(** A pool that holds a staff, named by its number, for staves 1 to 3. *)
Definition staffNumbered (_ staff : Cmper) : option Z :=
  if (1 <=? staff) && (staff <=? 3) then Some staff else None.

(** The first bytes of a gzip stream, and a byte of all ones. *)
Definition gzipHeader : list Z := [31; 139; 8; 0; 255].

(** A block of [RESET_LIMIT] zero bytes. *)
Definition zeroBlock : list Z := repeat 0 (Z.to_nat ScoreFileEncoder.RESET_LIMIT).

(** A dotted quarter note and an entry without duration. *)
Definition dottedQuarter : Entry := Samples.note 1 0 1536.
Definition durationless : Entry := Samples.note 1 0 0.

(** Layer [layerIndex] of [twoLayerHolder] in [twoLayers]. *)
Definition layerRun (layerIndex : nat) : Result nat :=
  iterateEntries false nat Samples.counting twoLayers 10 twoLayerHolder layerIndex
    Samples.fresh.

(** The nested sample under the callback that stops at the second entry. *)
Definition stoppedRun : Result nat :=
  iterateEntries false nat twoOnly Samples.nested 10 Samples.holder 0%nat Samples.fresh.

End MoreSamples.

(* ------------------------------------------------------------------ *)
(** * Facts about rational durations *)
(* ------------------------------------------------------------------ *)

Lemma Qnum_zero_iff (a : Q) : Qnum a = 0 <-> (a == 0)%Q.
Proof. unfold Qeq; simpl. lia. Qed.

Lemma is_zero_true_iff (a : Fraction.t) : Fraction.is_zero a = true <-> (a == 0)%Q.
Proof. unfold Fraction.is_zero. rewrite Z.eqb_eq. apply Qnum_zero_iff. Qed.

Lemma is_zero_false_iff (a : Fraction.t) : Fraction.is_zero a = false <-> ~ (a == 0)%Q.
Proof.
  rewrite <- is_zero_true_iff. destruct (Fraction.is_zero a); split; congruence.
Qed.

Lemma le_zero_Qle_bool (a : Fraction.t) : Fraction.le_zero a = Qle_bool a 0.
Proof.
  unfold Fraction.le_zero, Qle_bool; simpl. f_equal. lia.
Qed.

Lemma frac_Qeq (n d : Z) : d <> 0 -> (Fraction.frac n d == inject_Z n / inject_Z d)%Q.
Proof.
  intros Hd. unfold Fraction.frac. rewrite Qred_correct.
  destruct d as [|p|p]; [congruence| |].
  - rewrite Qmake_Qdiv. reflexivity.
  - rewrite Qmake_Qdiv. unfold Qeq, Qdiv, Qmult, Qinv, inject_Z; simpl. lia.
Qed.

Lemma frac_zero_iff (n d : Z) : d <> 0 -> (Fraction.frac n d == 0)%Q <-> n = 0.
Proof.
  intros Hd. unfold Fraction.frac. rewrite Qred_correct.
  destruct d as [|p|p]; [congruence| |]; unfold Qeq; simpl; lia.
Qed.

Lemma Qred_idem (q : Q) : Qred (Qred q) = Qred q.
Proof. apply Qred_complete, Qred_correct. Qed.

Lemma Qdiv_frac_Whole (p q : Z) :
  q <> 0 ->
  (Fraction.frac p NoteType_Whole / Fraction.frac q NoteType_Whole
   == inject_Z p / inject_Z q)%Q.
Proof.
  intros Hq.
  assert (HW : NoteType_Whole <> 0) by (unfold NoteType_Whole; lia).
  rewrite (frac_Qeq p _ HW), (frac_Qeq q _ HW).
  assert (Hq' : ~ (inject_Z q == 0)%Q).
  { unfold Qeq; simpl. lia. }
  assert (HW' : ~ (inject_Z NoteType_Whole == 0)%Q).
  { unfold Qeq; simpl. lia. }
  field. split; assumption.
Qed.

Lemma make_Whole (n : Z) :
  Fraction.make n NoteType_Whole = Normal (Fraction.frac n NoteType_Whole).
Proof. reflexivity. Qed.

(* ------------------------------------------------------------------ *)
(** * TupletDef::calcRatio *)
(* ------------------------------------------------------------------ *)

Lemma calcRatio_exact (t : TupletDef) : calcRatio t = referenceOverDisplay t.
Proof.
  unfold calcRatio, referenceOverDisplay, calcReferenceDuration, calcDisplayDuration.
  rewrite !make_Whole. simpl.
  set (p := int_mul (referenceNumber t) (referenceDuration t)).
  set (q := int_mul (displayNumber t) (displayDuration t)).
  unfold Fraction.make, Fraction.div.
  destruct (Z.eqb_spec q 0) as [Hq | Hq].
  - rewrite Hq.
    replace (Fraction.is_zero (Fraction.frac 0 NoteType_Whole)) with true by reflexivity.
    reflexivity.
  - assert (Hz : Fraction.is_zero (Fraction.frac q NoteType_Whole) = false).
    { apply is_zero_false_iff. rewrite frac_zero_iff; [assumption|].
      unfold NoteType_Whole; lia. }
    rewrite Hz. f_equal.
    transitivity (Qred (Fraction.frac p q)).
    + unfold Fraction.frac. symmetry. apply Qred_idem.
    + apply Qred_complete. rewrite Qdiv_frac_Whole by assumption.
      apply frac_Qeq; assumption.
Qed.

(** C9: for all values of the four fields, [calcRatio()] is
    [calcReferenceDuration() / calcDisplayDuration()]: the same lowest-terms
    fraction when the display product is non-zero, and the same
    invalid-argument failure when it is zero. *)
Theorem C9_calcRatio_is_reference_over_display
    (dn : Z) (dd : Edu) (rn : Z) (rd : Edu) :
  let t := {| displayNumber := dn; displayDuration := dd;
              referenceNumber := rn; referenceDuration := rd |} in
  calcRatio t = referenceOverDisplay t /\
  (int_mul dn dd <> 0 ->
     exists r ref disp,
       calcRatio t = Normal r /\
       calcReferenceDuration t = Normal ref /\
       calcDisplayDuration t = Normal disp /\
       (r == ref / disp)%Q /\ Qred r = r) /\
  (int_mul dn dd = 0 ->
     calcRatio t = Threw invalid_argument /\
     referenceOverDisplay t = Threw invalid_argument).
Proof.
  intros t. split; [apply calcRatio_exact|]. split.
  - intros Hq.
    exists (Fraction.frac (int_mul rn rd) (int_mul dn dd)),
           (Fraction.frac (int_mul rn rd) NoteType_Whole),
           (Fraction.frac (int_mul dn dd) NoteType_Whole).
    unfold calcRatio, calcReferenceDuration, calcDisplayDuration; simpl.
    rewrite !make_Whole. unfold Fraction.make.
    destruct (Z.eqb_spec (int_mul dn dd) 0) as [?|_]; [contradiction|].
    repeat split.
    + rewrite Qdiv_frac_Whole by assumption. apply frac_Qeq; assumption.
    + unfold Fraction.frac. apply Qred_idem.
  - intros Hq.
    assert (H : calcRatio t = Threw invalid_argument).
    { unfold calcRatio; simpl. rewrite Hq. reflexivity. }
    split; [assumption|]. rewrite <- calcRatio_exact. assumption.
Qed.

(* ------------------------------------------------------------------ *)
(** * GFrameHold::integrityCheck *)
(* ------------------------------------------------------------------ *)

(** C8: once the base check has passed, the integrity check of a frame holder
    reports "both clef and clef list" when the clef id and the clef-list id
    are both set, reports "neither clef nor clef list" when neither is set,
    and reports nothing and returns normally when exactly one is set. *)
Theorem C8_single_clef_invariant
    (strict : bool)
    (base : GFrameHold -> list IntegrityMsg -> Except unit * list IntegrityMsg)
    (g : GFrameHold) (log log0 : list IntegrityMsg) :
  base g log = (Normal tt, log0) ->
  let res := GFrameHold_integrityCheck strict base g log in
  (clefListId g <> 0 -> clefId g <> None ->
     violation_reported strict
       (GFrameHoldBothClefAndClefList (cmper1 g) (cmper2 g)) log0 res) /\
  (clefListId g = 0 -> clefId g = None ->
     violation_reported strict
       (GFrameHoldNeitherClefNorClefList (cmper1 g) (cmper2 g)) log0 res) /\
  ((clefListId g <> 0 /\ clefId g = None) \/ (clefListId g = 0 /\ clefId g <> None) ->
     res = (Normal tt, log0)).
Proof.
  intros Hbase res. subst res. unfold GFrameHold_integrityCheck. rewrite Hbase.
  unfold violation_reported, MUSX_INTEGRITY_ERROR.
  destruct (Z.eqb_spec (clefListId g) 0) as [Hl | Hl];
    destruct (clefId g) as [c|]; simpl;
    (split; [|split]); intros; try tauto; try congruence;
    destruct strict; try reflexivity.
  all: exfalso; destruct H as [[_ H] | [H _]]; congruence.
Qed.

(* ------------------------------------------------------------------ *)
(** * The tuplet context *)
(* ------------------------------------------------------------------ *)

Lemma emplace_all_Normal (ts : list TupletDef) :
  forall active active',
    emplace_all active ts = Normal active' ->
    exists news, active' = active ++ news /\ Forall2 starts ts news.
Proof.
  induction ts as [|t ts IH]; intros active active' H; simpl in H.
  - exists []. split; [|constructor]. rewrite app_nil_r. congruence.
  - destruct (TupletState_new t) as [s|x] eqn:Hs; simpl in H; [|discriminate].
    destruct (IH _ _ H) as (news & -> & Hnews).
    exists (s :: news). split.
    + rewrite <- app_assoc. reflexivity.
    + constructor; assumption.
Qed.

Lemma emplace_all_Threw (ts : list TupletDef) :
  forall active x, emplace_all active ts = Threw x -> x = invalid_argument.
Proof.
  induction ts as [|t ts IH]; intros active x H; simpl in H; [discriminate|].
  destruct (TupletState_new t) as [s|y] eqn:Hs; simpl in H.
  - eapply IH; eassumption.
  - injection H as <-. unfold TupletState_new in Hs. rewrite make_Whole in Hs.
    simpl in Hs. unfold Fraction.make in Hs.
    destruct (_ =? 0); simpl in Hs; congruence.
Qed.

Lemma TupletState_new_divisible (t : TupletDef) :
  int_mul (displayNumber t) (displayDuration t) <> 0 ->
  int_mul (referenceNumber t) (referenceDuration t) <> 0 ->
  exists s, TupletState_new t = Normal s /\ ~ (ratio s == 0)%Q.
Proof.
  intros Hd Hr. unfold TupletState_new. rewrite make_Whole. simpl.
  unfold Fraction.make.
  destruct (Z.eqb_spec (int_mul (displayNumber t) (displayDuration t)) 0);
    [contradiction|]. simpl.
  eexists. split; [reflexivity|]. simpl.
  rewrite frac_zero_iff; assumption.
Qed.

Lemma starts_fields (t : TupletDef) (s : TupletState) :
  starts t s ->
  tuplet s = t /\
  calcDisplayDuration t = Normal (remainingSymbolicDuration s) /\
  referenceOverDisplay t = Normal (ratio s).
Proof.
  unfold starts. intros H. rewrite <- calcRatio_exact.
  unfold TupletState_new in H. unfold calcDisplayDuration, calcRatio.
  destruct (Fraction.make _ NoteType_Whole) as [rem|x]; simpl in H; [|discriminate].
  destruct (Fraction.make _ _) as [r|x]; simpl in H; [|discriminate].
  injection H as <-. simpl. auto.
Qed.

Lemma emplace_all_divisible (ts : list TupletDef) :
  forall active,
    Forall (fun t => int_mul (displayNumber t) (displayDuration t) <> 0 /\
                     int_mul (referenceNumber t) (referenceDuration t) <> 0) ts ->
    Forall (fun s => ~ (ratio s == 0)%Q) active ->
    exists active', emplace_all active ts = Normal active' /\
                    Forall (fun s => ~ (ratio s == 0)%Q) active'.
Proof.
  induction ts as [|t ts IH]; intros active Hts Hact; simpl.
  - eauto.
  - inversion Hts as [|? ? [Hd Hr] Hts']; subst.
    destruct (TupletState_new_divisible t Hd Hr) as (s & -> & Hs). simpl.
    apply IH; [assumption|]. apply Forall_app. split; [assumption|].
    constructor; [assumption|constructor].
Qed.

Lemma decay_all_Normal (actual : Fraction.t) (active : list TupletState) :
  forall decayed,
    decay_all actual active = Normal decayed ->
    Forall2 (decayed_by actual) active decayed.
Proof.
  induction active as [|s active IH]; intros decayed H; simpl in H.
  - injection H as <-. constructor.
  - unfold Fraction.div in H.
    destruct (Fraction.is_zero (ratio s)) eqn:Hz; simpl in H; [discriminate|].
    destruct (decay_all actual active) as [rest|x]; simpl in H; [|discriminate].
    injection H as <-. constructor; [|apply IH; reflexivity].
    unfold decayed_by; simpl.
    split; [reflexivity|]. split; [reflexivity|]. split.
    + apply is_zero_false_iff. assumption.
    + unfold Fraction.sub. apply Qred_complete. rewrite Qred_correct. reflexivity.
Qed.

Lemma decay_all_divisible (actual : Fraction.t) (active : list TupletState) :
  Forall (fun s => ~ (ratio s == 0)%Q) active ->
  exists decayed, decay_all actual active = Normal decayed /\
                  Forall (fun s => ~ (ratio s == 0)%Q) decayed.
Proof.
  induction active as [|s active IH]; intros H; simpl.
  - eauto.
  - inversion H as [|? ? Hs Hrest]; subst.
    unfold Fraction.div. apply is_zero_false_iff in Hs. rewrite Hs. simpl.
    destruct (IH Hrest) as (rest & -> & Hr). simpl.
    eexists. split; [reflexivity|]. constructor; [|assumption].
    simpl. apply is_zero_false_iff. assumption.
Qed.

Lemma erase_finished_unfinished (l : list TupletState) :
  erase_finished l = unfinished l.
Proof.
  unfold erase_finished, unfinished. apply List.filter_ext.
  intros s. rewrite le_zero_Qle_bool. reflexivity.
Qed.

Lemma erase_finished_Forall (P : TupletState -> Prop) (l : list TupletState) :
  Forall P l -> Forall P (erase_finished l).
Proof.
  unfold erase_finished. rewrite !List.Forall_forall. intros H s Hs.
  apply List.filter_In in Hs. apply H. tauto.
Qed.



(* ------------------------------------------------------------------ *)
(** * One pass of the entry loop *)
(* ------------------------------------------------------------------ *)

Section LoopFacts.

Variable strict : bool.
Variable St : Type.
Variable iterator : EntryInfo -> St -> bool * St.
Variable doc : Document.
Variable g : GFrameHold.
Variable layerIndex : LayerIndex.
Variable frame : Frame.

Local Abbreviation body := (loopBody strict St iterator doc g layerIndex frame).
Local Abbreviation loop :=
  (fun fuel => entryLoop strict St iterator doc fuel g layerIndex frame).
Local Abbreviation pass := (Pass strict St iterator doc g layerIndex frame).
Local Abbreviation getNext := (Entry_getNext strict St doc).
Local Abbreviation tupletsAt :=
  (fun e => getArray_TupletDef doc SCORE_PARTID (m_entnum e)).

Lemma loopBody_Pass (e : Entry) (ls : LoopState) (w : World St) :
  pass e ls w (body e ls w).
Proof.
  unfold loopBody.
  destruct (emplace_all _ _) as [active|x] eqn:Hact; [|constructor; assumption].
  destruct (iterator _ _) as [[|] st'] eqn:Hit; simpl.
  - destruct (Z.eqb_spec (m_entnum e) (endEntry frame)) as [He|He].
    + eapply Pass_end_entry; eassumption.
    + destruct (decay_all _ _) as [decayed|x] eqn:Hdec.
      * destruct (getNext e _) as [[[next|]|x] w2] eqn:Hn.
        -- eapply Pass_continues; eassumption.
        -- eapply Pass_chain_ends; eassumption.
        -- eapply Pass_next_throws; eassumption.
      * eapply Pass_decay_throws; eassumption.
  - eapply Pass_halted; eassumption.
Qed.

Lemma entryLoop_S (fuel : nat) (e : Entry) (ls : LoopState) (w : World St) :
  loop (S fuel) e ls w =
  match body e ls w with
  | Leave r => r
  | Continue em next ls' w' => emit em (loop fuel next ls' w')
  end.
Proof. reflexivity. Qed.

(** Case analysis on the pass that starts at [e], [ls], [w]. *)
Ltac pass_cases e ls w :=
  let HP := fresh "HP" in
  let st := fresh "st" in
  pose proof (loopBody_Pass e ls w) as HP;
  set (st := loopBody _ _ _ _ _ _ _ _ _ _) in *;
  clearbody st; destruct HP; simpl in *.

(** The first callback invocation of a loop started at [e] is the emission
    for [e], built from the locals the loop was entered with. *)
Lemma loop_head (fuel : nat) (e : Entry) (ls : LoopState) (w : World St)
    (em : Emission) (rest : list Emission) :
  emitted (loop fuel e ls w) = em :: rest ->
  exists active,
    emplace_all (activeTuplets ls) (tupletsAt e) = Normal active /\
    em = emission g layerIndex e ls active.
Proof.
  destruct fuel as [|fuel]; [discriminate|].
  rewrite entryLoop_S. pass_cases e ls w; intros Hem;
    try discriminate; injection Hem as <- _; eauto.
Qed.

(** A loop that returns has invoked the callback at least once. *)
Lemma loop_returned_emits (fuel : nat) (e : Entry) (ls : LoopState) (w : World St)
    (b : bool) :
  completion (loop fuel e ls w) = Returned b -> emitted (loop fuel e ls w) <> [].
Proof.
  destruct fuel as [|fuel]; [discriminate|].
  rewrite entryLoop_S. pass_cases e ls w; intros Hc; discriminate.
Qed.

(** A property of every emission built in a pass holds of every callback
    invocation of the loop. *)
Lemma loop_Forall (P : Emission -> Prop) :
  (forall e ls active, P (emission g layerIndex e ls active)) ->
  forall fuel e ls w, Forall P (emitted (loop fuel e ls w)).
Proof.
  intros HP fuel. induction fuel as [|fuel IH]; intros e ls w.
  - constructor.
  - rewrite entryLoop_S.
    pass_cases e ls w;
      repeat (first [apply List.Forall_nil | apply List.Forall_cons; [apply HP|] | apply IH]).
Qed.

Lemma loop_In (P : Emission -> Prop) :
  (forall e ls active, P (emission g layerIndex e ls active)) ->
  forall fuel e ls w em, In em (emitted (loop fuel e ls w)) -> P em.
Proof.
  intros HP fuel e ls w em Hin.
  pose proof (loop_Forall P HP fuel e ls w) as Hall.
  rewrite List.Forall_forall in Hall. apply Hall. assumption.
Qed.

(** The callback invocation for the end entry is the last one; the function
    then returns with the locals as they were at that invocation. *)
Lemma loop_end_entry (fuel : nat) :
  forall e ls w em,
    In em (emitted (loop fuel e ls w)) ->
    m_entnum (m_entry (info em)) = endEntry frame ->
    exists pre b,
      emitted (loop fuel e ls w) = pre ++ [em] /\
      completion (loop fuel e ls w) = Returned b /\
      final (loop fuel e ls w) =
        Some {| activeTuplets := activeAt em;
                actualElapsedDuration := elapsedDuration (info em) |}.
Proof.
  induction fuel as [|fuel IH]; intros e ls w em Hin Hend.
  - destruct Hin.
  - rewrite entryLoop_S in *. pass_cases e ls w.
    + destruct Hin.
    + destruct Hin as [<-|[]]. exists [], false. auto.
    + destruct Hin as [<-|[]]. exists [], true. auto.
    + destruct Hin as [<-|[]]. simpl in Hend. contradiction.
    + destruct Hin as [<-|[]]. simpl in Hend. contradiction.
    + destruct Hin as [<-|[]]. simpl in Hend. contradiction.
    + destruct Hin as [<-|Hin]; [simpl in Hend; contradiction|].
      destruct (IH _ _ _ _ Hin Hend) as (pre & b & -> & Hc & Hf).
      exists (em0 :: pre), b. auto.
Qed.

Lemma loop_consecutive (fuel : nat) :
  forall e ls w pre em1 em2 post,
    emitted (loop fuel e ls w) = pre ++ em1 :: em2 :: post ->
    follows doc frame em1 em2.
Proof.
  induction fuel as [|fuel IH]; intros e ls w pre em1 em2 post Hem.
  - destruct pre; discriminate.
  - rewrite entryLoop_S in Hem. pass_cases e ls w;
      try (destruct pre as [|? [|? ?]]; discriminate).
    destruct pre as [|p pre]; simpl in Hem.
    + injection Hem as <- Hrest.
      destruct (loop_head _ _ _ _ _ _ Hrest) as (active2 & Hact2 & ->).
      apply emplace_all_Normal in Hact2. destruct Hact2 as (news & -> & Hnews).
      unfold follows; simpl. split; [assumption|]. split; [reflexivity|].
      exists decayed, news. split; [|split].
      * apply decay_all_Normal. assumption.
      * assumption.
      * rewrite erase_finished_unfinished. reflexivity.
    + injection Hem as _ Hrest. eapply IH. eassumption.
Qed.

(** When the function returns [true] after a last callback invocation that
    was not for the end entry, the bookkeeping for that entry was done. *)
Lemma loop_last_accounted (fuel : nat) :
  forall e ls w pre em,
    emitted (loop fuel e ls w) = pre ++ [em] ->
    completion (loop fuel e ls w) = Returned true ->
    m_entnum (m_entry (info em)) <> endEntry frame ->
    exists decayed,
      Forall2 (decayed_by (actualDuration (info em))) (activeAt em) decayed /\
      final (loop fuel e ls w) =
        Some {| activeTuplets := unfinished decayed;
                actualElapsedDuration :=
                  Qred (elapsedDuration (info em) + actualDuration (info em)) |}.
Proof.
  induction fuel as [|fuel IH]; intros e ls w pre em Hem Hc Hne.
  - destruct pre; discriminate.
  - rewrite entryLoop_S in *. pass_cases e ls w; try discriminate.
    + destruct pre as [|? [|? ?]]; try discriminate.
      injection Hem as <-. simpl in Hne. contradiction.
    + destruct pre as [|? [|? ?]]; try discriminate.
      injection Hem as <-. exists decayed. split.
      * apply decay_all_Normal. assumption.
      * unfold accounted. rewrite erase_finished_unfinished. reflexivity.
    + destruct pre as [|p pre]; simpl in Hem.
      * injection Hem as _ Hrest. exfalso.
        eapply loop_returned_emits; eassumption.
      * injection Hem as _ Hrest. eapply IH; eassumption.
Qed.

(** ** The end of the chain *)

Lemma getNext_null (e : Entry) (w : World St) :
  m_next e = 0 -> getNext e w = (Normal None, w).
Proof. intros H. unfold Entry_getNext. rewrite H. reflexivity. Qed.

Lemma getNext_resolved (e e' : Entry) (w : World St) :
  m_next e <> 0 -> get_Entry doc (m_next e) = Some e' ->
  getNext e w = (Normal (Some e'), w).
Proof.
  intros H0 H. unfold Entry_getNext.
  destruct (Z.eqb_spec (m_next e) 0); [contradiction|]. rewrite H. reflexivity.
Qed.

Lemma getNext_dangling (e : Entry) (w : World St) :
  m_next e <> 0 -> get_Entry doc (m_next e) = None ->
  getNext e w =
    if strict
    then (Threw (integrity_error (EntryNextMissing (m_entnum e) (m_next e))), w)
    else (Normal None,
          {| cb_state := cb_state w;
             diagnostics := diagnostics w ++ [EntryNextMissing (m_entnum e) (m_next e)] |}).
Proof.
  intros H0 H. unfold Entry_getNext, report, MUSX_INTEGRITY_ERROR.
  destruct (Z.eqb_spec (m_next e) 0); [contradiction|]. rewrite H.
  destruct strict, w; reflexivity.
Qed.

Lemma getNext_Some (e next : Entry) (w w' : World St) :
  getNext e w = (Normal (Some next), w') ->
  m_next e <> 0 /\ get_Entry doc (m_next e) = Some next /\ w' = w.
Proof.
  unfold Entry_getNext, report, MUSX_INTEGRITY_ERROR.
  destruct (Z.eqb_spec (m_next e) 0); [discriminate|].
  destruct (get_Entry doc (m_next e)) as [e'|].
  - intros Heq. injection Heq as <- <-. auto.
  - destruct strict; discriminate.
Qed.

(** A loop over a chain that ends after [k] further entries needs at most
    [k + 1] passes. *)
Lemma loop_terminates (e : Entry) (k : nat) :
  ChainEnds doc e k ->
  forall fuel ls w, (k < fuel)%nat -> completion (loop fuel e ls w) <> OutOfFuel.
Proof.
  induction 1 as [e Hlast | e e' k Hnz Hres Hchain IH]; intros fuel ls w Hfuel.
  - destruct fuel as [|fuel]; [lia|]. rewrite entryLoop_S.
    pass_cases e ls w; try discriminate.
    match goal with Hn : Entry_getNext _ _ _ _ _ = _ |- _ =>
      apply getNext_Some in Hn; destruct Hn as (Hn0 & Hn1 & _) end.
    destruct Hlast as [Hl|Hl]; congruence.
  - destruct fuel as [|fuel]; [lia|]. rewrite entryLoop_S.
    pass_cases e ls w; try discriminate.
    match goal with Hn : Entry_getNext _ _ _ _ _ = _ |- _ =>
      apply getNext_Some in Hn; destruct Hn as (Hn0 & Hn1 & _) end.
    rewrite Hres in Hn1. injection Hn1 as <-. apply IH. lia.
Qed.

(** The pass for an entry that is not the end entry, under a callback that
    continues and with divisible tuplets, reaches the next-entry lookup. *)
Lemma loopBody_reaches_getNext (e : Entry) (ls : LoopState) (w : World St) :
  (forall i s, fst (iterator i s) = true) ->
  tuplets_divisible doc ->
  Forall (fun s => ~ (ratio s == 0)%Q) (activeTuplets ls) ->
  m_entnum e <> endEntry frame ->
  exists em st' ls',
    Forall (fun s => ~ (ratio s == 0)%Q) (activeTuplets ls') /\
    body e ls w =
      match getNext e (afterCall w st') with
      | (Normal (Some next), w2) => Continue em next ls' w2
      | (Normal None, w2) =>
          Leave {| completion := Returned true; world := w2; emitted := [em];
                   final := Some ls' |}
      | (Threw x, w2) =>
          Leave {| completion := Thrown x; world := w2; emitted := [em];
                   final := None |}
      end.
Proof.
  intros Hcont Hdiv Hact Hne. unfold loopBody.
  destruct (emplace_all_divisible (tupletsAt e) (activeTuplets ls)) as (active & -> & Hactive);
    [|assumption|].
  { apply List.Forall_forall. intros t Ht. eapply Hdiv. eassumption. }
  destruct (iterator _ _) as [c st'] eqn:Hit.
  pose proof (Hcont (info (emission g layerIndex e ls active)) (cb_state w)) as Hc.
  rewrite Hit in Hc. simpl in Hc. subst c. simpl.
  destruct (Z.eqb_spec (m_entnum e) (endEntry frame)); [contradiction|].
  destruct (decay_all_divisible
              (actualDuration (info (emission g layerIndex e ls active))) active Hactive)
    as (decayed & Hdec & Hdecayed).
  simpl in Hdec. rewrite Hdec.
  eexists _, st', _. split; [|reflexivity].
  simpl. apply erase_finished_Forall. assumption.
Qed.

(** A loop over a chain that runs out before the end entry: what it returns
    and what it reports. *)
Lemma loop_runs_out (e : Entry) (k : nat) (last : Entry) (d : bool) :
  RunsOut doc (endEntry frame) e k last d ->
  (forall i s, fst (iterator i s) = true) ->
  tuplets_divisible doc ->
  forall fuel ls w,
    (k < fuel)%nat ->
    Forall (fun s => ~ (ratio s == 0)%Q) (activeTuplets ls) ->
    completion (loop fuel e ls w) =
      (if d && strict
       then Thrown (integrity_error (EntryNextMissing (m_entnum last) (m_next last)))
       else Returned true) /\
    diagnostics (world (loop fuel e ls w)) =
      diagnostics w ++
      (if d && negb strict
       then [EntryNextMissing (m_entnum last) (m_next last)] else []) /\
    length (emitted (loop fuel e ls w)) = S k.
Proof.
  intros Hrun Hcont Hdiv.
  induction Hrun as [e Hne Hnull | e Hne Hnz Hnone | e e' k last d Hne Hnz Hres Hrun IH];
    intros fuel ls w Hfuel Hact;
    (destruct fuel as [|fuel]; [lia|]); rewrite entryLoop_S;
    destruct (loopBody_reaches_getNext e ls w Hcont Hdiv Hact Hne)
      as (em & st' & ls' & Hls' & ->).
  - rewrite getNext_null by assumption. simpl. rewrite app_nil_r. auto.
  - rewrite getNext_dangling by assumption. destruct strict; simpl; auto.
    rewrite app_nil_r. auto.
  - rewrite (getNext_resolved e e') by assumption. simpl.
    destruct (IH fuel ls' (afterCall w st')) as (Hc & Hd & Hl); [lia|assumption|].
    rewrite Hc, Hd, Hl. auto.
Qed.

(** A loop over an entry that is its own next entry, and is not the end
    entry, exhausts every budget. *)
Lemma loop_self_cycle (e : Entry) :
  m_next e <> 0 -> get_Entry doc (m_next e) = Some e ->
  m_entnum e <> endEntry frame ->
  (forall i s, fst (iterator i s) = true) ->
  tuplets_divisible doc ->
  forall fuel ls w,
    Forall (fun s => ~ (ratio s == 0)%Q) (activeTuplets ls) ->
    completion (loop fuel e ls w) = OutOfFuel.
Proof.
  intros Hnz Hself Hne Hcont Hdiv fuel.
  induction fuel as [|fuel IH]; intros ls w Hact; [reflexivity|].
  rewrite entryLoop_S.
  destruct (loopBody_reaches_getNext e ls w Hcont Hdiv Hact Hne)
    as (em & st' & ls' & Hls' & ->).
  rewrite (getNext_resolved e e) by assumption. simpl. apply IH. assumption.
Qed.

End LoopFacts.

(* ------------------------------------------------------------------ *)
(** * Single-layer traversal *)
(* ------------------------------------------------------------------ *)

Lemma startTimes_reduced (incis : list Frame) :
  Qred (startTimes incis) = startTimes incis.
Proof.
  unfold startTimes.
  assert (H : forall l a, Qred a = a ->
            Qred (fold_left (fun acc f => Fraction.add acc
                               (Fraction.frac (startTime f) NoteType_Whole)) l a)
            = fold_left (fun acc f => Fraction.add acc
                               (Fraction.frac (startTime f) NoteType_Whole)) l a).
  { induction l as [|f l IH]; intros a Ha; simpl; [assumption|].
    apply IH. unfold Fraction.add. apply Qred_idem. }
  apply H. reflexivity.
Qed.

Lemma startTimes_Qeq (incis : list Frame) :
  (startTimes incis
   == Qsum (map (fun f => inject_Z (startTime f) / inject_Z NoteType_Whole) incis))%Q.
Proof.
  unfold startTimes.
  assert (H : forall l (a : Q),
            (fold_left (fun acc f => Fraction.add acc
                          (Fraction.frac (startTime f) NoteType_Whole)) l a
             == a + Qsum (map (fun f => inject_Z (startTime f) / inject_Z NoteType_Whole) l))%Q).
  { induction l as [|f l IH]; intros a; simpl.
    - ring.
    - rewrite IH. unfold Fraction.add. rewrite Qred_correct.
      rewrite frac_Qeq by (unfold NoteType_Whole; lia). ring. }
  rewrite H. unfold Fraction.of_int, Fraction.frac. rewrite Qred_correct. ring.
Qed.

Section IterateFacts.

Variable strict : bool.
Variable St : Type.
Variable iterator : EntryInfo -> St -> bool * St.
Variable doc : Document.

Local Abbreviation iterate := (iterateEntries strict St iterator doc).
Local Abbreviation loop := (entryLoop strict St iterator doc).
Local Abbreviation incisOf :=
  (fun g layerIndex => getArray_Frame doc (partId g) (nth layerIndex (frames g) 0)).

(** The locals the entry loop is entered with. *)
Local Abbreviation initial :=
  (fun g layerIndex =>
     {| activeTuplets := []; actualElapsedDuration := startTimes (incisOf g layerIndex) |}).

Lemma iterateEntries_enters (fuel : nat) (g : GFrameHold) (layerIndex : LayerIndex)
    (w : World St) (frame : Frame) (first : Entry) :
  (layerIndex < length (frames g))%nat ->
  nth layerIndex (frames g) 0 <> 0 ->
  findStartFrame (incisOf g layerIndex) = Some frame ->
  get_Entry doc (startEntry frame) = Some first ->
  iterate fuel g layerIndex w = loop fuel g layerIndex frame first (initial g layerIndex) w.
Proof.
  intros Hli Hid Hframe Hfirst. unfold iterateEntries.
  destruct (Nat.leb_spec (length (frames g)) layerIndex); [lia|].
  destruct (Z.eqb_spec (nth layerIndex (frames g) 0) 0); [contradiction|].
  rewrite Hframe, Hfirst. reflexivity.
Qed.

(** A traversal either never reaches the entry loop, and then invokes the
    callback not at all, or is the entry loop over the start frame. *)
Lemma iterateEntries_cases (fuel : nat) (g : GFrameHold) (layerIndex : LayerIndex)
    (w : World St) :
  (emitted (iterate fuel g layerIndex w) = [] /\
   final (iterate fuel g layerIndex w) = None /\
   cb_state (world (iterate fuel g layerIndex w)) = cb_state w) \/
  exists frame first,
    (layerIndex < length (frames g))%nat /\
    nth layerIndex (frames g) 0 <> 0 /\
    findStartFrame (incisOf g layerIndex) = Some frame /\
    get_Entry doc (startEntry frame) = Some first /\
    iterate fuel g layerIndex w
      = loop fuel g layerIndex frame first (initial g layerIndex) w.
Proof.
  unfold iterateEntries.
  destruct (Nat.leb_spec (length (frames g)) layerIndex); [left; auto|].
  destruct (Z.eqb_spec (nth layerIndex (frames g) 0) 0); [left; auto|].
  destruct (findStartFrame _) as [frame|] eqn:Hframe.
  - destruct (get_Entry doc (startEntry frame)) as [first|] eqn:Hfirst.
    + right. exists frame, first. auto.
    + left. unfold report, MUSX_INTEGRITY_ERROR. destruct strict; simpl; auto.
  - left. unfold report, MUSX_INTEGRITY_ERROR. destruct strict; simpl; auto.
Qed.

End IterateFacts.

(* ------------------------------------------------------------------ *)
(** * Properties of the traversal engine *)
(* ------------------------------------------------------------------ *)





Section ScalingFacts.

Variable strict : bool.
Variable St : Type.
Variable iterator : EntryInfo -> St -> bool * St.
Variable doc : Document.
Variable g : GFrameHold.
Variable layerIndex : LayerIndex.
Variable frame : Frame.

Local Abbreviation loop :=
  (fun fuel => entryLoop strict St iterator doc fuel g layerIndex frame).
Local Abbreviation tupletsAt :=
  (fun e => getArray_TupletDef doc SCORE_PARTID (m_entnum e)).



End ScalingFacts.


(** C2: when the entry handed to the callback carries the number of the
    frame's end entry, that invocation is the last one and the function
    returns right after it: the elapsed accumulator and the active tuplets
    are left as they were at the invocation, neither advanced nor decayed. *)
Theorem C2_end_entry_stops_before_bookkeeping
    (strict : bool) (St : Type) (iterator : EntryInfo -> St -> bool * St)
    (doc : Document) (fuel : nat) (g : GFrameHold) (layerIndex : LayerIndex)
    (w : World St) (frame : Frame) (em : Emission) :
  let r := iterateEntries strict St iterator doc fuel g layerIndex w in
  findStartFrame (getArray_Frame doc (partId g) (nth layerIndex (frames g) 0))
    = Some frame ->
  In em (emitted r) ->
  m_entnum (m_entry (info em)) = endEntry frame ->
  exists pre b,
    emitted r = pre ++ [em] /\
    completion r = Returned b /\
    final r = Some {| activeTuplets := activeAt em;
                      actualElapsedDuration := elapsedDuration (info em) |}.
Proof.
  intros r Hframe Hin Hend. subst r.
  destruct (iterateEntries_cases strict St iterator doc fuel g layerIndex w)
    as [(Hnil & _) | (frame' & first & _ & _ & Hframe' & _ & Heq)].
  - rewrite Hnil in Hin. destruct Hin.
  - rewrite Hframe in Hframe'. injection Hframe' as <-.
    rewrite Heq in *. eapply loop_end_entry; eassumption.
Qed.

Lemma unfinished_In (l : list TupletState) (s : TupletState) :
  In s (unfinished l) <-> In s l /\ (0 < remainingSymbolicDuration s)%Q.
Proof.
  unfold unfinished. rewrite List.filter_In.
  assert (H : negb (Qle_bool (remainingSymbolicDuration s) 0) = true
              <-> (0 < remainingSymbolicDuration s)%Q).
  { rewrite negb_true_iff. rewrite <- not_true_iff_false, Qle_bool_iff.
    split; [apply Qnot_le_lt | apply Qlt_not_le]. }
  rewrite H. reflexivity.
Qed.

(** C3: between one callback invocation and the next, the elapsed
    accumulator grows by the actual duration of the entry just handed over,
    every active tuplet's remaining symbolic duration is lowered by that
    actual duration divided by the tuplet's ratio, and only the tuplets whose
    remaining symbolic duration is still positive stay active for the next
    entry (followed by the tuplets that start there); the same bookkeeping
    was done when the function returns [true] after an entry that is not the
    end entry. *)
Theorem C3_bookkeeping_between_entries
    (strict : bool) (St : Type) (iterator : EntryInfo -> St -> bool * St)
    (doc : Document) (fuel : nat) (g : GFrameHold) (layerIndex : LayerIndex)
    (w : World St) (frame : Frame) :
  let r := iterateEntries strict St iterator doc fuel g layerIndex w in
  findStartFrame (getArray_Frame doc (partId g) (nth layerIndex (frames g) 0))
    = Some frame ->
  (forall pre em1 em2 post,
     emitted r = pre ++ em1 :: em2 :: post ->
     follows doc frame em1 em2) /\
  (forall pre em,
     emitted r = pre ++ [em] ->
     completion r = Returned true ->
     m_entnum (m_entry (info em)) <> endEntry frame ->
     exists decayed,
       Forall2 (decayed_by (actualDuration (info em))) (activeAt em) decayed /\
       final r = Some {| activeTuplets := unfinished decayed;
                         actualElapsedDuration :=
                           Qred (elapsedDuration (info em) + actualDuration (info em)) |}) /\
  (forall l s,
     In s (unfinished l) <-> In s l /\ (0 < remainingSymbolicDuration s)%Q).
Proof.
  intros r Hframe. subst r.
  destruct (iterateEntries_cases strict St iterator doc fuel g layerIndex w)
    as [(Hnil & _) | (frame' & first & _ & _ & Hframe' & _ & Heq)].
  - rewrite Hnil. split; [|split].
    + intros pre ? ? ? Hem. destruct pre; discriminate.
    + intros pre ? Hem. destruct pre; discriminate.
    + apply unfinished_In.
  - rewrite Hframe in Hframe'. injection Hframe' as <-. rewrite Heq.
    split; [|split].
    + intros pre em1 em2 post Hem. eapply loop_consecutive; eassumption.
    + intros pre em Hem Hc Hne. eapply loop_last_accounted; eassumption.
    + apply unfinished_In.
Qed.

(** C4, as the code has it: over a next-chain that ends after finitely many
    entries the traversal terminates; when the chain runs out before the end
    entry (the callback continuing, the tuplets divisible), the function
    reports a consistency violation only if the last entry's next reference
    is non-zero and unresolved (thrown in strict mode, logged otherwise), and
    returns [true] without any report if that reference is zero. *)
Theorem C4_chain_runs_out
    (strict : bool) (St : Type) (iterator : EntryInfo -> St -> bool * St)
    (doc : Document) (fuel : nat) (g : GFrameHold) (layerIndex : LayerIndex)
    (w : World St) (frame : Frame) (first : Entry) (k : nat) :
  let r := iterateEntries strict St iterator doc fuel g layerIndex w in
  (layerIndex < length (frames g))%nat ->
  nth layerIndex (frames g) 0 <> 0 ->
  findStartFrame (getArray_Frame doc (partId g) (nth layerIndex (frames g) 0))
    = Some frame ->
  get_Entry doc (startEntry frame) = Some first ->
  ChainEnds doc first k ->
  (k < fuel)%nat ->
  completion r <> OutOfFuel /\
  (forall last dangling,
     RunsOut doc (endEntry frame) first k last dangling ->
     (forall i s, fst (iterator i s) = true) ->
     tuplets_divisible doc ->
     completion r =
       (if dangling && strict
        then Thrown (integrity_error (EntryNextMissing (m_entnum last) (m_next last)))
        else Returned true) /\
     diagnostics (world r) =
       diagnostics w ++
       (if dangling && negb strict
        then [EntryNextMissing (m_entnum last) (m_next last)] else []) /\
     length (emitted r) = S k).
Proof.
  intros r Hli Hid Hframe Hfirst Hchain Hfuel. subst r.
  rewrite (iterateEntries_enters strict St iterator doc fuel g layerIndex w frame first)
    by assumption.
  split.
  - eapply loop_terminates; eassumption.
  - intros last dangling Hrun Hcont Hdiv.
    eapply loop_runs_out; try eassumption. constructor.
Qed.

(** C5, as the code has it: when no incarnation of the layer's frame carries
    a start entry, the callback is never invoked and the violation "points to
    non-existent frame" is reported: in strict mode it is thrown, otherwise
    it is appended to the diagnostics and the function returns [true]. *)
Theorem C5_frame_without_start_entry
    (strict : bool) (St : Type) (iterator : EntryInfo -> St -> bool * St)
    (doc : Document) (fuel : nat) (g : GFrameHold) (layerIndex : LayerIndex)
    (w : World St) :
  let r := iterateEntries strict St iterator doc fuel g layerIndex w in
  let msg := GFrameHoldNonExistentFrame (GFrameHold_getStaff g) (GFrameHold_getMeasure g)
               (nth layerIndex (frames g) 0) in
  (layerIndex < length (frames g))%nat ->
  nth layerIndex (frames g) 0 <> 0 ->
  findStartFrame (getArray_Frame doc (partId g) (nth layerIndex (frames g) 0)) = None ->
  emitted r = [] /\
  cb_state (world r) = cb_state w /\
  completion r = (if strict then Thrown (integrity_error msg) else Returned true) /\
  diagnostics (world r) = (if strict then diagnostics w else diagnostics w ++ [msg]).
Proof.
  intros r msg Hli Hid Hframe. subst r msg. unfold iterateEntries.
  destruct (Nat.leb_spec (length (frames g)) layerIndex); [lia|].
  destruct (Z.eqb_spec (nth layerIndex (frames g) 0) 0); [contradiction|].
  rewrite Hframe. unfold report, MUSX_INTEGRITY_ERROR.
  destruct strict; simpl; auto.
Qed.

(** C6: the elapsed duration handed to the callback with the first entry of a
    layer is the sum, over all incarnations of the layer's frame, of the
    start times as fractions of a whole note, in lowest terms; when the
    incarnations are a primary one with start time 0 and a second one with a
    non-zero start time, it is that start time over a whole note and is not
    zero. *)
Theorem C6_elapsed_starts_at_preroll
    (strict : bool) (St : Type) (iterator : EntryInfo -> St -> bool * St)
    (doc : Document) (fuel : nat) (g : GFrameHold) (layerIndex : LayerIndex)
    (w : World St) (em : Emission) (rest : list Emission) :
  let incis := getArray_Frame doc (partId g) (nth layerIndex (frames g) 0) in
  emitted (iterateEntries strict St iterator doc fuel g layerIndex w) = em :: rest ->
  elapsedDuration (info em)
    = Qred (Qsum (map (fun f => (inject_Z (startTime f) / inject_Z NoteType_Whole)%Q)
                      incis)) /\
  (forall primary secondary,
     incis = [primary; secondary] ->
     startTime primary = 0 -> startTime secondary <> 0 ->
     elapsedDuration (info em) = Fraction.frac (startTime secondary) NoteType_Whole /\
     ~ (elapsedDuration (info em) == 0)%Q).
Proof.
  intros incis Hem.
  assert (Hel : elapsedDuration (info em) = startTimes incis).
  { destruct (iterateEntries_cases strict St iterator doc fuel g layerIndex w)
      as [(Hnil & _) | (frame & first & _ & _ & _ & _ & Heq)].
    - rewrite Hnil in Hem. discriminate.
    - rewrite Heq in Hem. apply loop_head in Hem.
      destruct Hem as (active & _ & ->). reflexivity. }
  split.
  - rewrite Hel, <- startTimes_reduced. apply Qred_complete, startTimes_Qeq.
  - intros primary secondary Hincis Hp Hs.
    assert (H : elapsedDuration (info em) = Fraction.frac (startTime secondary) NoteType_Whole).
    { rewrite Hel, Hincis. unfold startTimes; simpl fold_left. rewrite Hp.
      replace (Fraction.add (Fraction.of_int 0) (Fraction.frac 0 NoteType_Whole))
        with 0%Q by reflexivity.
      transitivity (Qred (Fraction.frac (startTime secondary) NoteType_Whole)).
      - unfold Fraction.add. apply Qred_complete. ring.
      - unfold Fraction.frac. apply Qred_idem. }
    split; [assumption|]. rewrite H.
    rewrite frac_zero_iff; [assumption | unfold NoteType_Whole; lia].
Qed.

(** C7: on a frame holder with its four layer slots, a single-layer traversal
    with a layer index of 4 or more throws an invalid-argument error; the
    callback is not invoked and nothing else changes. *)
Theorem C7_layer_index_out_of_range
    (strict : bool) (St : Type) (iterator : EntryInfo -> St -> bool * St)
    (doc : Document) (fuel : nat) (g : GFrameHold) (layerIndex : LayerIndex)
    (w : World St) :
  let r := iterateEntries strict St iterator doc fuel g layerIndex w in
  length (frames g) = MAX_LAYERS ->
  (4 <= layerIndex)%nat ->
  completion r = Thrown invalid_argument /\ emitted r = [] /\ world r = w.
Proof.
  intros r Hlen Hli. subst r. unfold iterateEntries.
  destruct (Nat.leb_spec (length (frames g)) layerIndex) as [_|Hlt].
  - simpl. auto.
  - rewrite Hlen in Hlt. unfold MAX_LAYERS in Hlt. lia.
Qed.

(** C10: the state constructed for a tuplet that starts at an entry has the
    tuplet's display duration as its remaining symbolic duration and the
    reference duration divided by the display duration as its ratio; in the
    pass for an entry these states are appended, in the order of the lookup,
    to the tuplets that were active before, and this list is the one at the
    callback invocation (which the decay then consumes). *)
Theorem C10_tuplet_state_initialisation
    (strict : bool) (St : Type) (iterator : EntryInfo -> St -> bool * St)
    (doc : Document) (fuel : nat) (g : GFrameHold) (layerIndex : LayerIndex)
    (frame : Frame) (e : Entry) (ls : LoopState) (w : World St)
    (em : Emission) (rest : list Emission) :
  emitted (entryLoop strict St iterator doc fuel g layerIndex frame e ls w) = em :: rest ->
  exists news,
    activeAt em = activeTuplets ls ++ news /\
    Forall2 (fun t s =>
               TupletState_new t = Normal s /\
               tuplet s = t /\
               calcDisplayDuration t = Normal (remainingSymbolicDuration s) /\
               referenceOverDisplay t = Normal (ratio s))
            (getArray_TupletDef doc SCORE_PARTID (m_entnum e)) news.
Proof.
  intros Hem. apply loop_head in Hem. destruct Hem as (active & Hact & ->).
  apply emplace_all_Normal in Hact. destruct Hact as (news & -> & Hnews).
  exists news. split; [reflexivity|].
  induction Hnews as [|t s ts ss Hs _ IH]; constructor; [|assumption].
  split; [exact Hs|]. apply starts_fields. assumption.
Qed.

(* ------------------------------------------------------------------ *)
(** * The properties on the sample documents *)
(* ------------------------------------------------------------------ *)

Lemma tuplets_divisible_empty (doc : Document) :
  tupletPool doc = ∅ -> tuplets_divisible doc.
Proof.
  intros H part entnum t. unfold getArray_TupletDef. rewrite H, lookup_empty.
  intros [].
Qed.

Lemma counting_continues (i : EntryInfo) (s : nat) : fst (Samples.counting i s) = true.
Proof. reflexivity. Qed.

(** The triplet completes exactly at the third eighth and no longer scales
    the quarter that follows. *)
Example tripletBar_trace :
  let r := Samples.run true Samples.tripletBar in
  completion r = Returned true /\
  map (fun em => (elapsedDuration (info em), actualDuration (info em),
                  length (activeAt em))) (emitted r)
  = [(0, 1 # 12, 1%nat); (1 # 12, 1 # 12, 1%nat); (1 # 6, 1 # 12, 1%nat);
     (1 # 4, 1 # 4, 0%nat)]%Q.
Proof. split; vm_compute; reflexivity. Qed.


(** In the nested sample entry 4 is the end entry of the frame. *)
Lemma C2_witness :
  let r := Samples.run false Samples.nested in
  let em := Samples.invocation r 3 in
  findStartFrame (getArray_Frame Samples.nested 0 7) = Some (Samples.primary 1 4) /\
  In em (emitted r) /\
  m_entnum (m_entry (info em)) = 4 /\
  exists pre b,
    emitted r = pre ++ [em] /\
    completion r = Returned b /\
    final r = Some {| activeTuplets := activeAt em;
                      actualElapsedDuration := elapsedDuration (info em) |}.
Proof.
  intros r em.
  assert (Hframe : findStartFrame (getArray_Frame Samples.nested 0 7)
                   = Some (Samples.primary 1 4)) by reflexivity.
  assert (Hin : In em (emitted r)).
  { vm_compute. do 3 right. left. reflexivity. }
  assert (Hend : m_entnum (m_entry (info em)) = 4) by reflexivity.
  split; [exact Hframe|]. split; [exact Hin|]. split; [exact Hend|].
  exact (C2_end_entry_stops_before_bookkeeping
           false nat Samples.counting Samples.nested 10 Samples.holder 0%nat
           Samples.fresh (Samples.primary 1 4) em Hframe Hin Hend).
Defined.

(** In the nested sample the second invocation follows the first; in the
    truncated sample the function returns [true] after entry 1, which is not
    the end entry. *)
Lemma C3_witness :
  let r := Samples.run false Samples.nested in
  let r' := Samples.run false Samples.truncated in
  (emitted r = [] ++ Samples.invocation r 0 :: Samples.invocation r 1
                       :: [Samples.invocation r 2; Samples.invocation r 3] /\
   follows Samples.nested (Samples.primary 1 4)
     (Samples.invocation r 0) (Samples.invocation r 1)) /\
  (emitted r' = [] ++ [Samples.invocation r' 0] /\
   completion r' = Returned true /\
   m_entnum (m_entry (info (Samples.invocation r' 0))) <> 2 /\
   exists decayed,
     Forall2 (decayed_by (actualDuration (info (Samples.invocation r' 0))))
             (activeAt (Samples.invocation r' 0)) decayed /\
     final r' =
       Some {| activeTuplets := unfinished decayed;
               actualElapsedDuration :=
                 Qred (elapsedDuration (info (Samples.invocation r' 0))
                       + actualDuration (info (Samples.invocation r' 0))) |}).
Proof.
  intros r r'. split.
  - assert (Hem : emitted r = [] ++ Samples.invocation r 0 :: Samples.invocation r 1
                       :: [Samples.invocation r 2; Samples.invocation r 3])
      by (vm_compute; reflexivity).
    split; [exact Hem|].
    exact (proj1 (C3_bookkeeping_between_entries
                    false nat Samples.counting Samples.nested 10 Samples.holder 0%nat
                    Samples.fresh (Samples.primary 1 4) eq_refl) _ _ _ _ Hem).
  - assert (Hem : emitted r' = [] ++ [Samples.invocation r' 0]) by (vm_compute; reflexivity).
    assert (Hc : completion r' = Returned true) by (vm_compute; reflexivity).
    assert (Hne : m_entnum (m_entry (info (Samples.invocation r' 0))) <> 2)
      by (vm_compute; discriminate).
    split; [exact Hem|]. split; [exact Hc|]. split; [exact Hne|].
    exact (proj1 (proj2 (C3_bookkeeping_between_entries
                    false nat Samples.counting Samples.truncated 10 Samples.holder 0%nat
                    Samples.fresh (Samples.primary 1 2) eq_refl)) _ _ Hem Hc Hne).
Defined.

(** The truncated sample ends on a zero next reference; the cyclic sample
    never ends. *)
Lemma C4_counterexample :
  (forall strict,
     RunsOut Samples.truncated 2 (Samples.note 1 0 4096) 0 (Samples.note 1 0 4096) false /\
     completion (Samples.run strict Samples.truncated) = Returned true /\
     diagnostics (world (Samples.run strict Samples.truncated)) = []) /\
  (forall fuel,
     completion (iterateEntries false nat Samples.counting Samples.cyclic fuel
                   Samples.holder 0%nat Samples.fresh) = OutOfFuel).
Proof.
  split.
  - intros strict. split; [|destruct strict; split; reflexivity].
    constructor; [discriminate | reflexivity].
  - intros fuel.
    rewrite (iterateEntries_enters false nat Samples.counting Samples.cyclic fuel
               Samples.holder 0%nat Samples.fresh (Samples.primary 1 2)
               (Samples.note 1 1 4096));
      [| simpl; lia | discriminate | reflexivity | reflexivity].
    apply loop_self_cycle.
    + discriminate.
    + reflexivity.
    + discriminate.
    + apply counting_continues.
    + apply tuplets_divisible_empty. reflexivity.
    + constructor.
Qed.

(** The dangling sample in both modes, and the truncated sample. *)
Lemma C4_witness :
  let e := Samples.note 1 9 4096 in
  let msg := EntryNextMissing 1 9 in
  RunsOut Samples.dangling 2 e 0 e true /\
  (completion (Samples.run true Samples.dangling) = Thrown (integrity_error msg) /\
   diagnostics (world (Samples.run true Samples.dangling)) = []) /\
  (completion (Samples.run false Samples.dangling) = Returned true /\
   diagnostics (world (Samples.run false Samples.dangling)) = [msg]) /\
  completion (Samples.run false Samples.truncated) <> OutOfFuel.
Proof.
  intros e msg.
  assert (Hrun : RunsOut Samples.dangling 2 e 0 e true).
  { constructor; [discriminate | discriminate | reflexivity]. }
  assert (Hchain : ChainEnds Samples.dangling e 0).
  { constructor. right. reflexivity. }
  assert (Hdiv : tuplets_divisible Samples.dangling).
  { apply tuplets_divisible_empty. reflexivity. }
  assert (Hli : (0 < length (frames Samples.holder))%nat) by (simpl; lia).
  assert (Hid : nth 0 (frames Samples.holder) 0 <> 0) by discriminate.
  assert (Hfuel : (0 < 10)%nat) by lia.
  split; [exact Hrun|]. split; [|split].
  - destruct (proj2 (C4_chain_runs_out true nat Samples.counting Samples.dangling 10
                       Samples.holder 0%nat Samples.fresh (Samples.primary 1 2) e 0%nat
                       Hli Hid eq_refl eq_refl Hchain Hfuel)
                    e true Hrun counting_continues Hdiv) as (Hc & Hd & _).
    split; [exact Hc | exact Hd].
  - destruct (proj2 (C4_chain_runs_out false nat Samples.counting Samples.dangling 10
                       Samples.holder 0%nat Samples.fresh (Samples.primary 1 2) e 0%nat
                       Hli Hid eq_refl eq_refl Hchain Hfuel)
                    e true Hrun counting_continues Hdiv) as (Hc & Hd & _).
    split; [exact Hc | exact Hd].
  - assert (Hchain' : ChainEnds Samples.truncated (Samples.note 1 0 4096) 0).
    { constructor. left. reflexivity. }
    exact (proj1 (C4_chain_runs_out false nat Samples.counting Samples.truncated 10
                    Samples.holder 0%nat Samples.fresh (Samples.primary 1 2)
                    (Samples.note 1 0 4096) 0%nat
                    Hli Hid eq_refl eq_refl Hchain' Hfuel)).
Defined.

(** By default the traversal of the startless sample returns [true]. *)
Lemma C5_counterexample :
  let r := Samples.run false Samples.startless in
  findStartFrame (getArray_Frame Samples.startless 0 7) = None /\
  completion r = Returned true /\
  ~ (exists x, completion r = Thrown x) /\
  emitted r = [].
Proof.
  intros r.
  assert (Hc : completion r = Returned true) by (vm_compute; reflexivity).
  split; [reflexivity|]. split; [exact Hc|]. split; [|reflexivity].
  intros (x & Hx). congruence.
Qed.

Lemma C5_witness :
  let msg := GFrameHoldNonExistentFrame 1 1 7 in
  (emitted (Samples.run true Samples.startless) = [] /\
   cb_state (world (Samples.run true Samples.startless)) = O /\
   completion (Samples.run true Samples.startless) = Thrown (integrity_error msg) /\
   diagnostics (world (Samples.run true Samples.startless)) = []) /\
  (emitted (Samples.run false Samples.startless) = [] /\
   cb_state (world (Samples.run false Samples.startless)) = O /\
   completion (Samples.run false Samples.startless) = Returned true /\
   diagnostics (world (Samples.run false Samples.startless)) = [msg]).
Proof.
  intros msg.
  assert (Hli : (0 < length (frames Samples.holder))%nat) by (simpl; lia).
  assert (Hid : nth 0 (frames Samples.holder) 0 <> 0) by discriminate.
  split.
  - exact (C5_frame_without_start_entry true nat Samples.counting Samples.startless 10
             Samples.holder 0%nat Samples.fresh Hli Hid eq_refl).
  - exact (C5_frame_without_start_entry false nat Samples.counting Samples.startless 10
             Samples.holder 0%nat Samples.fresh Hli Hid eq_refl).
Defined.

(** The nested sample carries a pickup of a quarter note on its second
    incarnation. *)
Lemma C6_witness :
  let r := Samples.run false Samples.nested in
  emitted r = Samples.invocation r 0 :: tl (emitted r) /\
  getArray_Frame Samples.nested 0 7 = [Samples.primary 1 4; Samples.pickup] /\
  elapsedDuration (info (Samples.invocation r 0)) = (1 # 4)%Q /\
  ~ (elapsedDuration (info (Samples.invocation r 0)) == 0)%Q.
Proof.
  intros r.
  assert (Hem : emitted r = Samples.invocation r 0 :: tl (emitted r))
    by (vm_compute; reflexivity).
  assert (Hincis : getArray_Frame Samples.nested 0 7 = [Samples.primary 1 4; Samples.pickup])
    by reflexivity.
  assert (Hs : startTime Samples.pickup <> 0) by discriminate.
  destruct (proj2 (C6_elapsed_starts_at_preroll
                     false nat Samples.counting Samples.nested 10 Samples.holder 0%nat
                     Samples.fresh _ _ Hem)
                  (Samples.primary 1 4) Samples.pickup Hincis eq_refl Hs) as (Hel & Hnz).
  split; [exact Hem|]. split; [exact Hincis|]. split; [|exact Hnz].
  rewrite Hel. reflexivity.
Defined.

Lemma C7_witness :
  let r := iterateEntries false nat Samples.counting Samples.nested 10
             Samples.holder 4%nat Samples.fresh in
  length (frames Samples.holder) = MAX_LAYERS /\
  completion r = Thrown invalid_argument /\ emitted r = [] /\ world r = Samples.fresh.
Proof.
  intros r.
  assert (Hlen : length (frames Samples.holder) = MAX_LAYERS) by reflexivity.
  assert (Hli : (4 <= 4)%nat) by lia.
  split; [exact Hlen|].
  exact (C7_layer_index_out_of_range false nat Samples.counting Samples.nested 10
           Samples.holder 4%nat Samples.fresh Hlen Hli).
Defined.

(** The three frame holders of the integrity test. *)
Lemma C8_witness :
  violation_reported true (GFrameHoldBothClefAndClefList 3 915) []
    (GFrameHold_integrityCheck true Samples.quietBase Samples.bothClefs []) /\
  violation_reported false (GFrameHoldNeitherClefNorClefList 3 915) []
    (GFrameHold_integrityCheck false Samples.quietBase Samples.noClefs []) /\
  GFrameHold_integrityCheck true Samples.quietBase Samples.clefList [] = (Normal tt, []) /\
  GFrameHold_integrityCheck true Samples.quietBase Samples.holder [] = (Normal tt, []).
Proof.
  split; [|split; [|split]].
  - apply (proj1 (C8_single_clef_invariant true Samples.quietBase Samples.bothClefs
                    [] [] eq_refl)); discriminate.
  - apply (proj1 (proj2 (C8_single_clef_invariant false Samples.quietBase Samples.noClefs
                           [] [] eq_refl))); reflexivity.
  - apply (proj2 (proj2 (C8_single_clef_invariant true Samples.quietBase Samples.clefList
                           [] [] eq_refl))).
    left. split; [discriminate | reflexivity].
  - apply (proj2 (proj2 (C8_single_clef_invariant true Samples.quietBase Samples.holder
                           [] [] eq_refl))).
    right. split; [reflexivity | discriminate].
Defined.

(** The triplet has ratio 2/3; a tuplet with display number 0 has none. *)
Lemma C9_witness :
  (exists r ref disp,
     calcRatio Samples.triplet = Normal r /\
     calcReferenceDuration Samples.triplet = Normal ref /\
     calcDisplayDuration Samples.triplet = Normal disp /\
     (r == ref / disp)%Q /\ Qred r = r) /\
  (calcRatio Samples.emptyTuplet = Threw invalid_argument /\
   referenceOverDisplay Samples.emptyTuplet = Threw invalid_argument).
Proof.
  split.
  - apply (proj1 (proj2 (C9_calcRatio_is_reference_over_display 3 512 2 512))).
    vm_compute. discriminate.
  - apply (proj2 (proj2 (C9_calcRatio_is_reference_over_display 0 512 2 512))).
    reflexivity.
Defined.

(** The first pass over the nested sample constructs the states of the
    triplet and of the quintuplet. *)
Lemma C10_witness :
  let ls := {| activeTuplets := []; actualElapsedDuration := (1 # 4)%Q |} in
  let r := entryLoop false nat Samples.counting Samples.nested 10 Samples.holder 0%nat
             (Samples.primary 1 4) (Samples.note 1 2 512) ls Samples.fresh in
  emitted r = nth 0 (emitted r) Samples.blank :: tl (emitted r) /\
  getArray_TupletDef Samples.nested SCORE_PARTID 1 = [Samples.triplet; Samples.quintuplet] /\
  exists news,
    activeAt (nth 0 (emitted r) Samples.blank) = activeTuplets ls ++ news /\
    Forall2 (fun t s =>
               TupletState_new t = Normal s /\
               tuplet s = t /\
               calcDisplayDuration t = Normal (remainingSymbolicDuration s) /\
               referenceOverDisplay t = Normal (ratio s))
            (getArray_TupletDef Samples.nested SCORE_PARTID 1) news.
Proof.
  intros ls r.
  assert (Hem : emitted r = nth 0 (emitted r) Samples.blank :: tl (emitted r))
    by (vm_compute; reflexivity).
  split; [exact Hem|]. split; [reflexivity|].
  exact (C10_tuplet_state_initialisation false nat Samples.counting Samples.nested 10
           Samples.holder 0%nat (Samples.primary 1 4) (Samples.note 1 2 512) ls
           Samples.fresh _ _ Hem).
Defined.

(* ------------------------------------------------------------------ *)
(** * ScoreFileEncoder::cryptBuffer *)
(* ------------------------------------------------------------------ *)

Lemma lxor_byte (b c : Z) :
  0 <= b < 2 ^ 8 -> 0 <= c < 2 ^ 8 -> 0 <= Z.lxor b c < 2 ^ 8.
Proof.
  intros Hb Hc.
  assert (Hnn : 0 <= Z.lxor b c) by (apply Z.lxor_nonneg; lia).
  split; [assumption|].
  destruct (Z.eq_dec (Z.lxor b c) 0) as [->|Hnz]; [lia|].
  apply Z.log2_lt_pow2; [lia|].
  pose proof (Z.log2_lxor b c ltac:(lia) ltac:(lia)) as Hlog.
  assert (Hlb : Z.log2 b < 8).
  { destruct (Z.eq_dec b 0) as [->|?]; [reflexivity|]. apply Z.log2_lt_pow2; lia. }
  assert (Hlc : Z.log2 c < 8).
  { destruct (Z.eq_dec c 0) as [->|?]; [reflexivity|]. apply Z.log2_lt_pow2; lia. }
  lia.
Qed.

Lemma keyByte_mod_255 (state : Z) :
  ScoreFileEncoder.keyByte state = (Z.shiftr state 16 mod 2 ^ 16) mod 255.
Proof.
  unfold ScoreFileEncoder.keyByte.
  set (upper := Z.shiftr state 16 mod 2 ^ 16).
  change (2 ^ 8) with 256. clearbody upper.
  Z.div_mod_to_equations. lia.
Qed.

(** X1: the key byte is the upper half of the state reduced modulo 255; it is
    never 0xFF. *)
Theorem X1_key_byte_is_upper_mod_255 (state : Z) :
  ScoreFileEncoder.keyByte state = (Z.shiftr state 16 mod 2 ^ 16) mod 255 /\
  0 <= ScoreFileEncoder.keyByte state <= 254.
Proof.
  split; [apply keyByte_mod_255|].
  rewrite keyByte_mod_255.
  pose proof (Z.mod_pos_bound (Z.shiftr state 16 mod 2 ^ 16) 255 ltac:(lia)). lia.
Qed.

Lemma keyByte_byte (state : Z) : 0 <= ScoreFileEncoder.keyByte state < 2 ^ 8.
Proof.
  rewrite keyByte_mod_255.
  pose proof (Z.mod_pos_bound (Z.shiftr state 16 mod 2 ^ 16) 255 ltac:(lia)).
  change (2 ^ 8) with 256. lia.
Qed.

Lemma cryptFrom_involutive (buffer : list Z) :
  ScoreFileEncoder.is_bytes buffer ->
  forall i state,
    ScoreFileEncoder.cryptFrom i state (ScoreFileEncoder.cryptFrom i state buffer) = buffer.
Proof.
  induction 1 as [|b rest Hb _ IH]; intros i state; simpl; [reflexivity|].
  rewrite IH. f_equal.
  set (c := ScoreFileEncoder.keyByte _).
  assert (Hc : 0 <= c < 2 ^ 8) by apply keyByte_byte.
  rewrite (Z.mod_small (Z.lxor b c)) by (apply lxor_byte; assumption).
  rewrite Z.lxor_assoc, Z.lxor_nilpotent, Z.lxor_0_r.
  apply Z.mod_small. assumption.
Qed.

(** X2: the cipher is its own inverse on byte buffers: encoding a decoded
    buffer, or decoding an encoded one, gives the buffer back. *)
Theorem X2_cryptBuffer_is_an_involution (buffer : list Z) :
  ScoreFileEncoder.is_bytes buffer ->
  ScoreFileEncoder.cryptBuffer (ScoreFileEncoder.cryptBuffer buffer) = buffer.
Proof.
  intros H. apply cryptFrom_involutive. assumption.
Qed.

Lemma succ_mod_RESET_LIMIT (i : Z) :
  0 <= i ->
  (i + 1) mod ScoreFileEncoder.RESET_LIMIT <> 0 ->
  (i + 1) mod ScoreFileEncoder.RESET_LIMIT = i mod ScoreFileEncoder.RESET_LIMIT + 1.
Proof.
  unfold ScoreFileEncoder.RESET_LIMIT. intros Hi Hnz.
  Z.div_mod_to_equations. lia.
Qed.

Lemma cryptFrom_nth (buffer : list Z) :
  forall (i : Z) (state : Z) (n : nat) (b : Z),
    0 <= i -> on_track i state ->
    nth_error buffer n = Some b ->
    nth_error (ScoreFileEncoder.cryptFrom i state buffer) n =
    Some (Z.lxor b (ScoreFileEncoder.keyAt
                      (Z.to_nat ((i + Z.of_nat n) mod ScoreFileEncoder.RESET_LIMIT)))
          mod 2 ^ 8).
Proof.
  induction buffer as [|b0 rest IH]; intros i state n b Hi Htrack Hn.
  - destruct n; discriminate.
  - cbn [ScoreFileEncoder.cryptFrom].
    set (k := Z.to_nat (i mod ScoreFileEncoder.RESET_LIMIT)).
    assert (Hstate0 :
      (if i mod ScoreFileEncoder.RESET_LIMIT =? 0
       then ScoreFileEncoder.INITIAL_STATE else state)
      = Nat.iter k ScoreFileEncoder.advance ScoreFileEncoder.INITIAL_STATE).
    { destruct (Z.eqb_spec (i mod ScoreFileEncoder.RESET_LIMIT) 0) as [Hz|Hz].
      - subst k. rewrite Hz. reflexivity.
      - apply Htrack. assumption. }
    rewrite Hstate0.
    destruct n as [|n]; cbn [nth_error] in *.
    + injection Hn as <-. change (Z.of_nat 0) with 0. rewrite Z.add_0_r. reflexivity.
    + rewrite (IH (i + 1) _ n b); [| lia | | assumption].
      * replace (i + 1 + Z.of_nat n) with (i + Z.of_nat (S n)) by lia. reflexivity.
      * intros Hnz. rewrite succ_mod_RESET_LIMIT by assumption.
        assert (Hk : 0 <= i mod ScoreFileEncoder.RESET_LIMIT).
        { apply Z.mod_pos_bound. reflexivity. }
        rewrite Z2Nat.inj_add by lia. rewrite Nat.add_comm. reflexivity.
Qed.

(** X4: byte [n] of the output is byte [n] of the input XOR-ed with a key byte
    that depends only on [n mod RESET_LIMIT]: the key stream restarts every
    0x20000 bytes and does not depend on the data. *)
Theorem X4_cryptBuffer_key_stream_is_periodic (buffer : list Z) (n : nat) (b : Z) :
  nth_error buffer n = Some b ->
  nth_error (ScoreFileEncoder.cryptBuffer buffer) n =
  Some (Z.lxor b (ScoreFileEncoder.keyAt
                    (Z.to_nat (Z.of_nat n mod ScoreFileEncoder.RESET_LIMIT)))
        mod 2 ^ 8).
Proof.
  intros Hn. unfold ScoreFileEncoder.cryptBuffer.
  rewrite (cryptFrom_nth buffer 0 _ n b); [reflexivity | lia | | assumption].
  intros Hnz. exfalso. apply Hnz. reflexivity.
Qed.

Lemma cryptFrom_reset (buffer : list Z) (i state state' : Z) :
  i mod ScoreFileEncoder.RESET_LIMIT = 0 ->
  ScoreFileEncoder.cryptFrom i state buffer = ScoreFileEncoder.cryptFrom i state' buffer.
Proof.
  intros Hi. destruct buffer as [|b rest]; simpl; [reflexivity|].
  rewrite Hi. reflexivity.
Qed.

Lemma cryptFrom_congruent (buffer : list Z) :
  forall i j state,
    i mod ScoreFileEncoder.RESET_LIMIT = j mod ScoreFileEncoder.RESET_LIMIT ->
    ScoreFileEncoder.cryptFrom i state buffer = ScoreFileEncoder.cryptFrom j state buffer.
Proof.
  induction buffer as [|b rest IH]; intros i j state Hij; simpl; [reflexivity|].
  rewrite Hij. f_equal. apply IH.
  rewrite (Z.add_mod i), (Z.add_mod j) by (unfold ScoreFileEncoder.RESET_LIMIT; lia).
  rewrite Hij. reflexivity.
Qed.

Lemma cryptFrom_app (a b : list Z) :
  forall i state,
  exists state',
    ScoreFileEncoder.cryptFrom i state (a ++ b) =
    ScoreFileEncoder.cryptFrom i state a ++
    ScoreFileEncoder.cryptFrom (i + Z.of_nat (length a)) state' b.
Proof.
  induction a as [|x a IH]; intros i state.
  - exists state. simpl. rewrite Z.add_0_r. reflexivity.
  - cbn [app ScoreFileEncoder.cryptFrom length].
    match goal with |- context [ScoreFileEncoder.cryptFrom (i + 1) ?s (a ++ b)] =>
      destruct (IH (i + 1) s) as (state' & ->) end.
    exists state'. cbn [app]. do 3 f_equal. lia.
Qed.

(** X5: blocks of [RESET_LIMIT] bytes are re-coded independently: when the
    length of [a] is a multiple of 0x20000, re-coding [a ++ b] is re-coding
    [a] and [b] separately. *)
Theorem X5_cryptBuffer_blocks_are_independent (a b : list Z) :
  Z.of_nat (length a) mod ScoreFileEncoder.RESET_LIMIT = 0 ->
  ScoreFileEncoder.cryptBuffer (a ++ b) =
  ScoreFileEncoder.cryptBuffer a ++ ScoreFileEncoder.cryptBuffer b.
Proof.
  intros Hlen. unfold ScoreFileEncoder.cryptBuffer.
  destruct (cryptFrom_app a b 0 ScoreFileEncoder.INITIAL_STATE) as (state' & ->).
  f_equal. rewrite Z.add_0_l.
  rewrite (cryptFrom_reset b _ state' ScoreFileEncoder.INITIAL_STATE) by assumption.
  apply cryptFrom_congruent. rewrite Hlen. reflexivity.
Qed.

Lemma cryptFrom_firstn (buffer : list Z) :
  forall n i state,
    ScoreFileEncoder.cryptFrom i state (firstn n buffer) =
    firstn n (ScoreFileEncoder.cryptFrom i state buffer).
Proof.
  induction buffer as [|b rest IH]; intros [|n] i state; simpl; try reflexivity.
  rewrite IH. reflexivity.
Qed.

(** X6: re-coding a prefix of a buffer gives the prefix of the re-coded
    buffer: a byte of the output depends on no later byte. *)
Theorem X6_cryptBuffer_commutes_with_prefix (buffer : list Z) (n : nat) :
  ScoreFileEncoder.cryptBuffer (firstn n buffer) =
  firstn n (ScoreFileEncoder.cryptBuffer buffer).
Proof. apply cryptFrom_firstn. Qed.

(* ------------------------------------------------------------------ *)
(** * Entry::calcNoteType and Entry::calcAugmentationDots *)
(* ------------------------------------------------------------------ *)

Lemma msbLoop_pow2 (value : positive) :
  forall msb, msbLoop value msb = msb * 2 ^ Z.log2 (Zpos value).
Proof.
  induction value as [v IH | v IH |]; intros msb; cbn [msbLoop].
  - rewrite IH, Z.shiftl_mul_pow2 by lia.
    change (Zpos v~1) with (2 * Zpos v + 1).
    rewrite Z.log2_succ_double by lia.
    rewrite Z.pow_succ_r by apply Z.log2_nonneg. ring.
  - rewrite IH, Z.shiftl_mul_pow2 by lia.
    change (Zpos v~0) with (2 * Zpos v).
    rewrite Z.log2_double by lia.
    rewrite Z.pow_succ_r by apply Z.log2_nonneg. ring.
  - simpl. ring.
Qed.

Lemma calcNoteType_in_range (e : Entry) :
  1 < duration e < 65536 ->
  calcNoteType e = Normal (2 ^ Z.log2 (duration e)).
Proof.
  intros Hd. unfold calcNoteType.
  destruct (Z.leb_spec (duration e) 1); [lia|].
  destruct (Z.leb_spec 65536 (duration e)); [lia|]. simpl.
  destruct (duration e) as [|value|value]; try lia.
  rewrite msbLoop_pow2. f_equal. ring.
Qed.

(** X7: [calcNoteType] throws exactly for durations of at most 1 or at least
    65536 ticks; otherwise it returns the largest power of two that does not
    exceed the duration, between 2 and 32768. *)
Theorem X7_calcNoteType_is_the_top_bit (e : Entry) :
  (1 < duration e < 65536 ->
   exists noteType,
     calcNoteType e = Normal noteType /\
     noteType = 2 ^ Z.log2 (duration e) /\
     noteType <= duration e < 2 * noteType /\
     2 <= noteType <= 32768) /\
  (duration e <= 1 \/ 65536 <= duration e ->
   calcNoteType e = Threw invalid_argument).
Proof.
  split.
  - intros Hd. exists (2 ^ Z.log2 (duration e)).
    split; [apply calcNoteType_in_range; assumption|]. split; [reflexivity|].
    pose proof (Z.log2_spec (duration e) ltac:(lia)) as Hspec.
    rewrite Z.pow_succ_r in Hspec by apply Z.log2_nonneg.
    split; [lia|].
    assert (Hlo : 1 <= Z.log2 (duration e)).
    { apply Z.log2_le_pow2; simpl; lia. }
    assert (Hhi : Z.log2 (duration e) < 16).
    { apply Z.log2_lt_pow2; simpl; lia. }
    split.
    + change 2 with (2 ^ 1) at 1. apply Z.pow_le_mono_r; lia.
    + change 32768 with (2 ^ 15). apply Z.pow_le_mono_r; lia.
  - intros Hd. unfold calcNoteType.
    destruct (Z.leb_spec (duration e) 1); [reflexivity|].
    destruct (Z.leb_spec 65536 (duration e)); [reflexivity|]. lia.
Qed.

Lemma pow2_pos (j : nat) : Zpos (bitOf j) = 2 ^ Z.of_nat j.
Proof.
  induction j as [|j IH].
  - reflexivity.
  - rewrite Nat2Z.inj_succ, Z.pow_succ_r by lia.
    cbn [bitOf]. rewrite Pos2Z.inj_xO, IH. reflexivity.
Qed.

Lemma land_pow2_zero (a : Z) (j : nat) :
  (Z.land a (2 ^ Z.of_nat j) =? 0) = negb (Z.testbit a (Z.of_nat j)).
Proof.
  assert (Hland : Z.land a (2 ^ Z.of_nat j)
                  = if Z.testbit a (Z.of_nat j) then 2 ^ Z.of_nat j else 0).
  { apply Z.bits_inj'. intros n Hn.
    rewrite Z.land_spec, Z.pow2_bits_eqb by lia.
    destruct (Z.eqb_spec (Z.of_nat j) n) as [<-|Hne].
    - destruct (Z.testbit a (Z.of_nat j)).
      + rewrite Z.pow2_bits_true by lia. reflexivity.
      + rewrite Z.bits_0. reflexivity.
    - rewrite andb_false_r. destruct (Z.testbit a (Z.of_nat j)).
      + rewrite Z.pow2_bits_false by assumption. reflexivity.
      + rewrite Z.bits_0. reflexivity. }
  rewrite Hland. destruct (Z.testbit a (Z.of_nat j)); simpl.
  - apply Z.eqb_neq. pose proof (Z.pow_pos_nonneg 2 (Z.of_nat j)). lia.
  - reflexivity.
Qed.

Lemma dotsLoop_step (dur : Z) (j : nat) :
  dotsLoop dur (bitOf j) =
  if Z.testbit dur (Z.of_nat j)
  then 1 + match j with
           | O => 0
           | S j' => dotsLoop dur (bitOf j')
           end
  else 0.
Proof.
  destruct j as [|j]; cbn [dotsLoop bitOf].
  - change (Z.pos 1) with (2 ^ Z.of_nat 0). rewrite land_pow2_zero.
    destruct (Z.testbit dur (Z.of_nat 0)); reflexivity.
  - change (Z.pos (bitOf j)~0) with (Z.pos (bitOf (S j))).
    rewrite pow2_pos, land_pow2_zero.
    destruct (Z.testbit dur (Z.of_nat (S j))); reflexivity.
Qed.

(** The loop started at bit [j] counts the set bits from [j] downwards up to
    the first clear one. *)
Lemma dotsLoop_run (dur : Z) (j : nat) :
  let n := dotsLoop dur (bitOf j) in
  0 <= n <= Z.of_nat j + 1 /\
  (forall i, Z.of_nat j - n < i <= Z.of_nat j -> Z.testbit dur i = true) /\
  (n <= Z.of_nat j -> Z.testbit dur (Z.of_nat j - n) = false).
Proof.
  induction j as [|j IH]; intros n; subst n; rewrite dotsLoop_step.
  - destruct (Z.testbit dur (Z.of_nat 0)) eqn:Hbit.
    + split; [simpl; lia|]. split.
      * intros i Hi. replace i with (Z.of_nat 0) by (simpl in *; lia). assumption.
      * simpl. lia.
    + split; [simpl; lia|]. split.
      * intros i Hi. simpl in Hi. lia.
      * intros _. rewrite Z.sub_0_r. assumption.
  - destruct (Z.testbit dur (Z.of_nat (S j))) eqn:Hbit.
    + destruct IH as (Hrange & Hset & Hclear).
      set (m := dotsLoop dur (bitOf j)) in *.
      rewrite Nat2Z.inj_succ in *. split; [lia|]. split.
      * intros i Hi. destruct (Z.eq_dec i (Z.succ (Z.of_nat j))) as [->|Hne];
          [assumption|]. apply Hset. lia.
      * intros Hle. replace (Z.succ (Z.of_nat j) - (1 + m)) with (Z.of_nat j - m) by lia.
        apply Hclear. lia.
    + split; [lia|]. split.
      * intros i Hi. lia.
      * intros _. rewrite Z.sub_0_r. assumption.
Qed.

Lemma calcAugmentationDots_in_range (e : Entry) :
  1 < duration e < 65536 ->
  exists j : nat,
    Z.log2 (duration e) = Z.of_nat (S j) /\
    calcAugmentationDots e = Normal (dotsLoop (duration e) (bitOf j)).
Proof.
  intros Hd.
  assert (Hlo : 1 <= Z.log2 (duration e)).
  { apply Z.log2_le_pow2; simpl; lia. }
  exists (Z.to_nat (Z.log2 (duration e) - 1)).
  assert (Hk : Z.log2 (duration e)
               = Z.of_nat (S (Z.to_nat (Z.log2 (duration e) - 1)))).
  { rewrite Nat2Z.inj_succ, Z2Nat.id by lia. lia. }
  split; [exact Hk|].
  unfold calcAugmentationDots. rewrite calcNoteType_in_range by assumption.
  cbn [mbind Except_bind]. rewrite Z.shiftr_div_pow2 by lia.
  rewrite Hk at 1. rewrite Nat2Z.inj_succ, Z.pow_succ_r by lia.
  change (2 ^ 1) with 2.
  rewrite Z.mul_comm, Z.div_mul by lia.
  rewrite <- pow2_pos. reflexivity.
Qed.

Lemma calcAugmentationDots_run (e : Entry) :
  1 < duration e < 65536 ->
  let k := Z.log2 (duration e) in
  exists d,
    calcAugmentationDots e = Normal d /\
    0 <= d <= k /\
    (forall i, k - d <= i < k -> Z.testbit (duration e) i = true) /\
    (d < k -> Z.testbit (duration e) (k - d - 1) = false).
Proof.
  intros Hd k.
  destruct (calcAugmentationDots_in_range e Hd) as (j & Hk & ->).
  eexists. split; [reflexivity|].
  destruct (dotsLoop_run (duration e) j) as (Hrange & Hset & Hclear).
  subst k. rewrite Hk, Nat2Z.inj_succ.
  set (n := dotsLoop (duration e) (bitOf j)) in *.
  split; [lia|]. split.
  - intros i Hi. apply Hset. lia.
  - intros Hlt. replace (Z.succ (Z.of_nat j) - n - 1) with (Z.of_nat j - n) by lia.
    apply Hclear. lia.
Qed.

(** X8: on a valid duration [calcAugmentationDots] returns the number [d] of
    consecutive set bits directly below the top bit [k]: the bits
    [k-d .. k-1] are set, and bit [k-d-1] is clear unless [d = k]. *)
Theorem X8_calcAugmentationDots_counts_bits_below_the_top (e : Entry) :
  1 < duration e < 65536 ->
  let k := Z.log2 (duration e) in
  exists d,
    calcAugmentationDots e = Normal d /\
    0 <= d <= k /\
    (forall i, k - d <= i < k -> Z.testbit (duration e) i = true) /\
    (d < k -> Z.testbit (duration e) (k - d - 1) = false).
Proof. apply calcAugmentationDots_run. Qed.

Lemma dotted_bits (k d i : Z) :
  0 <= d <= k -> 0 <= i ->
  Z.testbit (2 ^ (k + 1) - 2 ^ (k - d)) i = (k - d <=? i) && (i <=? k).
Proof.
  intros Hd Hi.
  assert (Heq : 2 ^ (k + 1) - 2 ^ (k - d) = Z.shiftl (Z.ones (d + 1)) (k - d)).
  { rewrite Z.shiftl_mul_pow2, Z.ones_equiv by lia.
    replace (k + 1) with ((d + 1) + (k - d)) by lia.
    rewrite Z.pow_add_r by lia. unfold Z.pred. ring. }
  rewrite Heq, Z.shiftl_spec by assumption.
  destruct (Z.leb_spec (k - d) i) as [Hlo|Hlo].
  - destruct (Z.leb_spec i k) as [Hhi|Hhi]; simpl.
    + apply Z.ones_spec_low. lia.
    + apply Z.ones_spec_high. lia.
  - simpl. apply Z.testbit_neg_r. lia.
Qed.

(** X9: a note of type [2 ^ k] with [d] augmentation dots lasts
    [2 ^ (k+1) - 2 ^ (k-d)] ticks; for such a duration [calcNoteType] returns
    [2 ^ k] and [calcAugmentationDots] returns [d]. *)
Theorem X9_dotted_durations_are_recognised (e : Entry) (k d : Z) :
  1 <= k <= 15 -> 0 <= d <= k ->
  duration e = 2 ^ (k + 1) - 2 ^ (k - d) ->
  calcNoteType e = Normal (2 ^ k) /\ calcAugmentationDots e = Normal d.
Proof.
  intros Hk Hd Hdur.
  assert (Hlow : 2 ^ k <= duration e).
  { rewrite Hdur, Z.pow_add_r, Z.pow_1_r by lia.
    assert (2 ^ (k - d) <= 2 ^ k) by (apply Z.pow_le_mono_r; lia). lia. }
  assert (Hhigh : duration e < 2 ^ (k + 1)).
  { rewrite Hdur. pose proof (Z.pow_pos_nonneg 2 (k - d)). lia. }
  assert (H2 : 2 ^ 1 <= 2 ^ k) by (apply Z.pow_le_mono_r; lia).
  assert (H16 : 2 ^ (k + 1) <= 2 ^ 16) by (apply Z.pow_le_mono_r; lia).
  assert (Hrange : 1 < duration e < 65536).
  { change (2 ^ 1) with 2 in H2. change (2 ^ 16) with 65536 in H16. lia. }
  assert (Hlog : Z.log2 (duration e) = k).
  { apply Z.log2_unique; [lia|]. unfold Z.succ. lia. }
  split.
  - rewrite calcNoteType_in_range, Hlog by assumption. reflexivity.
  - destruct (calcAugmentationDots_run e Hrange) as (n & -> & Hn & Hset & Hclear).
    rewrite Hlog in *. f_equal.
    destruct (Z.lt_trichotomy n d) as [Hlt | [-> | Hgt]]; [|reflexivity|]; exfalso.
    + assert (Hbit : Z.testbit (duration e) (k - n - 1) = false) by (apply Hclear; lia).
      rewrite Hdur, dotted_bits in Hbit by lia.
      destruct (Z.leb_spec (k - d) (k - n - 1)); destruct (Z.leb_spec (k - n - 1) k);
        simpl in Hbit; try discriminate; lia.
    + assert (Hbit : Z.testbit (duration e) (k - n) = true) by (apply Hset; lia).
      rewrite Hdur, dotted_bits in Hbit by lia.
      destruct (Z.leb_spec (k - d) (k - n)); simpl in Hbit; try discriminate; lia.
Qed.

(* ------------------------------------------------------------------ *)
(** * More on the single-layer traversal *)
(* ------------------------------------------------------------------ *)

Lemma decay_all_Threw (actual : Fraction.t) (active : list TupletState) :
  forall x, decay_all actual active = Threw x -> x = invalid_argument.
Proof.
  induction active as [|s active IH]; intros x; simpl; [discriminate|].
  unfold Fraction.div. destruct (Fraction.is_zero (ratio s)); simpl.
  - intros H. injection H as <-. reflexivity.
  - destruct (decay_all actual active) as [rest|y]; simpl; [discriminate|].
    intros H. injection H as <-. apply IH. reflexivity.
Qed.

Section TraversalExtras.

Variable strict : bool.
Variable St : Type.
Variable iterator : EntryInfo -> St -> bool * St.
Variable doc : Document.
Variable g : GFrameHold.
Variable layerIndex : LayerIndex.
Variable frame : Frame.

Local Abbreviation loop :=
  (fun fuel => entryLoop strict St iterator doc fuel g layerIndex frame).
Local Abbreviation getNext := (Entry_getNext strict St doc).
Local Abbreviation after := (stateAfter St iterator).

(** Case analysis on the pass that starts at [e], [ls], [w]. *)
Ltac pass_split e ls w :=
  let HP := fresh "HP" in
  let st := fresh "st" in
  pose proof (loopBody_Pass strict St iterator doc g layerIndex frame e ls w) as HP;
  set (st := loopBody _ _ _ _ _ _ _ _ _ _) in *;
  clearbody st; destruct HP; cbn [emitted emit completion world final] in *.

Lemma getNext_world (e : Entry) (w w' : World St) (c : Except (option Entry)) :
  getNext e w = (c, w') ->
  cb_state w' = cb_state w /\
  (strict = true -> diagnostics w' = diagnostics w) /\
  (strict = false ->
   (exists r, c = Normal r) /\
   exists extra, diagnostics w' = diagnostics w ++ extra /\ (length extra <= 1)%nat).
Proof.
  unfold Entry_getNext, report, MUSX_INTEGRITY_ERROR.
  destruct (m_next e =? 0).
  - intros H. injection H as <- <-. split; [reflexivity|]. split; [reflexivity|].
    intros _. split; [eauto|]. exists []. rewrite app_nil_r. auto.
  - destruct (get_Entry doc (m_next e)) as [e'|].
    + intros H. injection H as <- <-. split; [reflexivity|]. split; [reflexivity|].
      intros _. split; [eauto|]. exists []. rewrite app_nil_r. auto.
    + destruct strict; intros H; injection H as <- <-; simpl.
      * split; [reflexivity|]. split; [reflexivity|]. discriminate.
      * split; [reflexivity|]. split; [discriminate|].
        intros _. split; [eauto|]. eexists. split; [reflexivity|]. simpl. lia.
Qed.

Lemma loop_answers (fuel : nat) :
  forall e ls w,
    (forall pre em post,
       emitted (loop fuel e ls w) = pre ++ em :: post -> post <> [] ->
       fst (iterator (info em) (after pre (cb_state w))) = true) /\
    (completion (loop fuel e ls w) = Returned false ->
     exists pre em,
       emitted (loop fuel e ls w) = pre ++ [em] /\
       fst (iterator (info em) (after pre (cb_state w))) = false).
Proof.
  induction fuel as [|fuel IH]; intros e ls w.
  - split; [intros [|? ?] ? ?; discriminate | discriminate].
  - rewrite entryLoop_S. pass_split e ls w.
    all: try (split;
              [ intros [|? [|? ?]] ? ? Hem Hpost; try discriminate;
                injection Hem as _ <-; contradiction
              | try discriminate ]).
    + intros _. exists [], em. split; [reflexivity|].
      change (fst (iterator (info em) (cb_state w)) = false).
      match goal with Hit : iterator _ _ = _ |- _ => rewrite Hit end. reflexivity.
    + match goal with Hn : Entry_getNext _ _ _ _ _ = _ |- _ =>
        apply getNext_world in Hn; destruct Hn as (Hcb & _) end.
      destruct (IH next (accounted ls (actualDuration (info em)) decayed) w2)
        as (IHtrue & IHfalse).
      assert (Hst : cb_state w2 = snd (iterator (info em) (cb_state w))).
      { rewrite Hcb.
        match goal with Hit : iterator _ _ = _ |- _ => rewrite Hit end. reflexivity. }
      split.
      * intros [|p pre] em' post Hem Hpost; simpl in Hem; injection Hem as Hp Hrest.
        -- subst em'. change (fst (iterator (info em) (cb_state w)) = true).
           match goal with Hit : iterator _ _ = _ |- _ => rewrite Hit end. reflexivity.
        -- subst p.
           change (fst (iterator (info em')
                          (after pre (snd (iterator (info em) (cb_state w))))) = true).
           rewrite <- Hst. eapply IHtrue; eassumption.
      * intros Hc. destruct (IHfalse Hc) as (pre & em' & Hem' & Hans).
        exists (em :: pre), em'. split; [rewrite Hem'; reflexivity|].
        change (fst (iterator (info em')
                       (after pre (snd (iterator (info em) (cb_state w))))) = false).
        rewrite <- Hst. assumption.
Qed.

Lemma loop_modes (fuel : nat) :
  forall e ls w,
    (strict = true -> diagnostics (world (loop fuel e ls w)) = diagnostics w) /\
    (strict = false ->
     (forall msg, completion (loop fuel e ls w) <> Thrown (integrity_error msg)) /\
     exists extra,
       diagnostics (world (loop fuel e ls w)) = diagnostics w ++ extra /\
       (length extra <= 1)%nat).
Proof.
  induction fuel as [|fuel IH]; intros e ls w.
  - split; [reflexivity|]. intros _. split; [discriminate|].
    exists []. rewrite app_nil_r. auto.
  - rewrite entryLoop_S. pass_split e ls w;
      repeat match goal with
             | Hn : Entry_getNext _ _ _ _ _ = (Normal (Some _), _) |- _ =>
                 apply getNext_Some in Hn; destruct Hn as (_ & _ & ->)
             | Hn : Entry_getNext _ _ _ _ _ = _ |- _ =>
                 apply getNext_world in Hn; destruct Hn as (_ & Hs & Hd)
             | Hx : emplace_all _ _ = Threw _ |- _ => apply emplace_all_Threw in Hx; subst
             | Hx : decay_all _ _ = Threw _ |- _ => apply decay_all_Threw in Hx; subst
             end.
    all: try (split; [reflexivity|]; intros _; split; [discriminate|];
              exists []; rewrite app_nil_r; auto).
    + split; [assumption|]. intros Hdef. split; [discriminate|]. apply Hd. assumption.
    + split; [assumption|]. intros Hdef. destruct (Hd Hdef) as ((r & Hr) & _). discriminate.
    + apply (IH next (accounted ls (actualDuration (info em)) decayed) (afterCall w st')).
Qed.

Lemma loop_chain (fuel : nat) :
  forall e ls w pre em1 em2 post,
    emitted (loop fuel e ls w) = pre ++ em1 :: em2 :: post ->
    m_next (m_entry (info em1)) <> 0 /\
    get_Entry doc (m_next (m_entry (info em1))) = Some (m_entry (info em2)).
Proof.
  induction fuel as [|fuel IH]; intros e ls w pre em1 em2 post Hem.
  - destruct pre; discriminate.
  - rewrite entryLoop_S in Hem. pass_split e ls w;
      try (destruct pre as [|? [|? ?]]; discriminate).
    destruct pre as [|p pre]; cbn [app] in Hem; injection Hem as Hp Hrest.
    + subst em1. apply loop_head in Hrest. destruct Hrest as (active2 & _ & ->).
      match goal with Hn : Entry_getNext _ _ _ _ _ = _ |- _ =>
        apply getNext_Some in Hn; destruct Hn as (Hnz & Hres & _) end.
      split; assumption.
    + eapply IH. eassumption.
Qed.

Lemma loop_refused (fuel : nat) (e : Entry) (ls : LoopState) (w : World St) :
  (forall i s, fst (iterator i s) = false) ->
  (length (emitted (loop fuel e ls w)) <= 1)%nat /\
  (emitted (loop fuel e ls w) <> [] -> completion (loop fuel e ls w) = Returned false).
Proof.
  intros Hno. destruct fuel as [|fuel].
  - split; [simpl; lia | intros Hne; contradiction].
  - rewrite entryLoop_S. pass_split e ls w;
      try match goal with
          | Hit : iterator ?i ?s = (true, _) |- _ =>
              pose proof (Hno i s) as Hf; rewrite Hit in Hf; discriminate
          end.
    + split; [simpl; lia | intros Hne; contradiction].
    + split; [simpl; lia | reflexivity].
Qed.

Lemma loop_elapsed (fuel : nat) :
  forall e ls w pre em post,
    emitted (loop fuel e ls w) = pre ++ em :: post ->
    (elapsedDuration (info em)
     == actualElapsedDuration ls + Qsum (map (fun x => actualDuration (info x)) pre))%Q.
Proof.
  induction fuel as [|fuel IH]; intros e ls w pre em0 post Hem.
  - destruct pre; discriminate.
  - rewrite entryLoop_S in Hem. pass_split e ls w.
    all: try (destruct pre as [|? [|? ?]]; try discriminate;
              injection Hem as Hp _; subst em0; simpl;
              symmetry; apply Qplus_0_r).
    destruct pre as [|p pre]; cbn [app] in Hem; injection Hem as Hp Hrest.
    + subst em0. simpl. symmetry. apply Qplus_0_r.
    + subst p. rewrite (IH _ _ _ _ _ _ Hrest).
      cbn [accounted actualElapsedDuration map Qsum fold_right].
      unfold Fraction.add. rewrite Qred_correct. symmetry. apply Qplus_assoc.
Qed.

End TraversalExtras.

(** What a single-layer traversal does when it does not reach the entry
    loop. *)
Lemma iterateEntries_outside_loop
    (strict : bool) (St : Type) (iterator : EntryInfo -> St -> bool * St)
    (doc : Document) (fuel : nat) (g : GFrameHold) (layerIndex : LayerIndex)
    (w : World St) :
  let r := iterateEntries strict St iterator doc fuel g layerIndex w in
  (emitted r = [] /\
   cb_state (world r) = cb_state w /\
   completion r <> Returned false /\
   (strict = true -> diagnostics (world r) = diagnostics w) /\
   (strict = false ->
    (forall msg, completion r <> Thrown (integrity_error msg)) /\
    exists extra, diagnostics (world r) = diagnostics w ++ extra /\
                  (length extra <= 1)%nat)) \/
  exists frame first,
    (layerIndex < length (frames g))%nat /\
    nth layerIndex (frames g) 0 <> 0 /\
    findStartFrame (getArray_Frame doc (partId g) (nth layerIndex (frames g) 0))
      = Some frame /\
    get_Entry doc (startEntry frame) = Some first /\
    r = entryLoop strict St iterator doc fuel g layerIndex frame first
          {| activeTuplets := [];
             actualElapsedDuration :=
               startTimes (getArray_Frame doc (partId g) (nth layerIndex (frames g) 0)) |}
          w.
Proof.
  intros r. subst r. unfold iterateEntries.
  assert (Hnil : forall l : list IntegrityMsg,
            exists extra, l = l ++ extra /\ (length extra <= 1)%nat).
  { intros l. exists []. rewrite app_nil_r. auto. }
  assert (Hone : forall (l : list IntegrityMsg) m,
            exists extra, l ++ [m] = l ++ extra /\ (length extra <= 1)%nat).
  { intros l m. exists [m]. auto. }
  destruct (Nat.leb_spec (length (frames g)) layerIndex).
  { left. simpl. repeat split; try discriminate; auto. }
  destruct (Z.eqb_spec (nth layerIndex (frames g) 0) 0).
  { left. simpl. repeat split; try discriminate; auto. }
  destruct (findStartFrame _) as [frame|] eqn:Hframe.
  - destruct (get_Entry doc (startEntry frame)) as [first|] eqn:Hfirst.
    + right. exists frame, first. auto.
    + left. unfold report, MUSX_INTEGRITY_ERROR.
      destruct strict; simpl; repeat split; try discriminate; auto.
  - left. unfold report, MUSX_INTEGRITY_ERROR.
    destruct strict; simpl; repeat split; try discriminate; auto.
Qed.

Lemma emission_labels (g : GFrameHold) (layerIndex : LayerIndex) (e : Entry)
    (ls : LoopState) (active : list TupletState) :
  let em := emission g layerIndex e ls active in
  m_layerIndex (info em) = layerIndex /\
  m_staff (info em) = cmper1 g /\ m_measure (info em) = cmper2 g.
Proof. simpl. auto. Qed.

Lemma iterateEntries_labels
    (strict : bool) (St : Type) (iterator : EntryInfo -> St -> bool * St)
    (doc : Document) (fuel : nat) (g : GFrameHold) (layerIndex : LayerIndex)
    (w : World St) (em : Emission) :
  In em (emitted (iterateEntries strict St iterator doc fuel g layerIndex w)) ->
  m_layerIndex (info em) = layerIndex /\
  m_staff (info em) = cmper1 g /\ m_measure (info em) = cmper2 g /\
  (layerIndex < length (frames g))%nat /\
  nth layerIndex (frames g) 0 <> 0.
Proof.
  intros Hin.
  destruct (iterateEntries_cases strict St iterator doc fuel g layerIndex w)
    as [(Hnil & _) | (frame & first & Hli & Hid & _ & _ & Heq)].
  - rewrite Hnil in Hin. destruct Hin.
  - rewrite Heq in Hin.
    pose proof (loop_In strict St iterator doc g layerIndex frame
                  (fun em => m_layerIndex (info em) = layerIndex /\
                             m_staff (info em) = cmper1 g /\
                             m_measure (info em) = cmper2 g)
                  (emission_labels g layerIndex) _ _ _ _ _ Hin) as (H1 & H2 & H3).
    auto.
Qed.

(** X10: every entry handed to the callback by a single-layer traversal
    carries the layer index asked for and the staff and measure of the frame
    holder, and the layer's slot holds a frame. *)
Theorem X10_entries_carry_the_layer_asked_for
    (strict : bool) (St : Type) (iterator : EntryInfo -> St -> bool * St)
    (doc : Document) (fuel : nat) (g : GFrameHold) (layerIndex : LayerIndex)
    (w : World St) (em : Emission) :
  In em (emitted (iterateEntries strict St iterator doc fuel g layerIndex w)) ->
  m_layerIndex (info em) = layerIndex /\
  m_staff (info em) = GFrameHold_getStaff g /\
  m_measure (info em) = GFrameHold_getMeasure g /\
  (layerIndex < length (frames g))%nat /\
  nth layerIndex (frames g) 0 <> 0.
Proof. intros Hin. apply (iterateEntries_labels strict St iterator doc fuel g _ w em Hin). Qed.

(** X12: the callback's answers decide the traversal: every invocation but
    the last answered [true], and the traversal returns [false] only when
    the last invocation answered [false] (answers taken in the callback
    state reached by the invocations before). *)
Theorem X12_callback_false_halts_the_traversal
    (strict : bool) (St : Type) (iterator : EntryInfo -> St -> bool * St)
    (doc : Document) (fuel : nat) (g : GFrameHold) (layerIndex : LayerIndex)
    (w : World St) :
  let r := iterateEntries strict St iterator doc fuel g layerIndex w in
  (forall pre em post,
     emitted r = pre ++ em :: post -> post <> [] ->
     fst (iterator (info em) (stateAfter St iterator pre (cb_state w))) = true) /\
  (completion r = Returned false ->
   exists pre em,
     emitted r = pre ++ [em] /\
     fst (iterator (info em) (stateAfter St iterator pre (cb_state w))) = false).
Proof.
  intros r. subst r.
  destruct (iterateEntries_outside_loop strict St iterator doc fuel g layerIndex w)
    as [(Hnil & _ & Hc & _) | (frame & first & _ & _ & _ & _ & ->)].
  - rewrite Hnil. split.
    + intros [|? ?] ? ? Hem; discriminate.
    + intros Hfalse. contradiction.
  - apply loop_answers.
Qed.

(** X13: the two modes of consistency violations are kept apart: in strict
    mode a traversal never writes to the diagnostic sink; in default mode it
    never throws an integrity error and appends at most one message. *)
Theorem X13_strict_throws_default_logs
    (strict : bool) (St : Type) (iterator : EntryInfo -> St -> bool * St)
    (doc : Document) (fuel : nat) (g : GFrameHold) (layerIndex : LayerIndex)
    (w : World St) :
  let r := iterateEntries strict St iterator doc fuel g layerIndex w in
  (strict = true -> diagnostics (world r) = diagnostics w) /\
  (strict = false ->
   (forall msg, completion r <> Thrown (integrity_error msg)) /\
   exists extra, diagnostics (world r) = diagnostics w ++ extra /\
                 (length extra <= 1)%nat).
Proof.
  intros r. subst r.
  destruct (iterateEntries_outside_loop strict St iterator doc fuel g layerIndex w)
    as [(_ & _ & _ & Hs & Hd) | (frame & first & _ & _ & _ & _ & ->)].
  - split; assumption.
  - apply loop_modes.
Qed.

(** X14: the traversal walks the chain: the first entry handed over is the
    pool's entry for the start entry of the frame, and each further entry is
    the pool's entry for the non-zero next reference of the one before. *)
Theorem X14_entries_follow_the_next_chain
    (strict : bool) (St : Type) (iterator : EntryInfo -> St -> bool * St)
    (doc : Document) (fuel : nat) (g : GFrameHold) (layerIndex : LayerIndex)
    (w : World St) (frame : Frame) :
  let r := iterateEntries strict St iterator doc fuel g layerIndex w in
  findStartFrame (getArray_Frame doc (partId g) (nth layerIndex (frames g) 0))
    = Some frame ->
  (forall em rest,
     emitted r = em :: rest ->
     get_Entry doc (startEntry frame) = Some (m_entry (info em))) /\
  (forall pre em1 em2 post,
     emitted r = pre ++ em1 :: em2 :: post ->
     m_next (m_entry (info em1)) <> 0 /\
     get_Entry doc (m_next (m_entry (info em1))) = Some (m_entry (info em2))).
Proof.
  intros r Hframe. subst r.
  destruct (iterateEntries_cases strict St iterator doc fuel g layerIndex w)
    as [(Hnil & _) | (frame' & first & _ & _ & Hframe' & Hfirst & Heq)].
  - rewrite Hnil. split.
    + intros ? ? Hem. discriminate.
    + intros [|? ?] ? ? ? Hem; discriminate.
  - rewrite Hframe in Hframe'. injection Hframe' as <-. rewrite Heq. split.
    + intros em rest Hem. apply loop_head in Hem. destruct Hem as (active & _ & ->).
      exact Hfirst.
    + intros pre em1 em2 post Hem. eapply loop_chain. eassumption.
Qed.

(** X22: the elapsed duration handed over with an entry is the pre-roll of
    the frame plus the actual durations of all entries handed over before
    it, as an exact rational. *)
Theorem X22_elapsed_is_preroll_plus_earlier_actual_durations
    (strict : bool) (St : Type) (iterator : EntryInfo -> St -> bool * St)
    (doc : Document) (fuel : nat) (g : GFrameHold) (layerIndex : LayerIndex)
    (w : World St) (pre : list Emission) (em : Emission) (post : list Emission) :
  let incis := getArray_Frame doc (partId g) (nth layerIndex (frames g) 0) in
  emitted (iterateEntries strict St iterator doc fuel g layerIndex w) = pre ++ em :: post ->
  (elapsedDuration (info em)
   == Qsum (map (fun f => inject_Z (startTime f) / inject_Z NoteType_Whole) incis)
      + Qsum (map (fun x => actualDuration (info x)) pre))%Q.
Proof.
  intros incis Hem.
  destruct (iterateEntries_cases strict St iterator doc fuel g layerIndex w)
    as [(Hnil & _) | (frame & first & _ & _ & _ & _ & Heq)].
  - rewrite Hnil in Hem. destruct pre; discriminate.
  - rewrite Heq in Hem. apply loop_elapsed in Hem. rewrite Hem. simpl.
    rewrite startTimes_Qeq. reflexivity.
Qed.

(** X15: when the frame names a start entry that the entry pool does not
    hold, the callback is never invoked and the violation "is not iterable"
    is reported: thrown in strict mode, otherwise logged, the function
    returning [true]. *)
Theorem X15_missing_start_entry_is_not_iterable
    (strict : bool) (St : Type) (iterator : EntryInfo -> St -> bool * St)
    (doc : Document) (fuel : nat) (g : GFrameHold) (layerIndex : LayerIndex)
    (w : World St) (frame : Frame) :
  let r := iterateEntries strict St iterator doc fuel g layerIndex w in
  let msg := GFrameHoldNotIterable (GFrameHold_getStaff g) (GFrameHold_getMeasure g) in
  (layerIndex < length (frames g))%nat ->
  nth layerIndex (frames g) 0 <> 0 ->
  findStartFrame (getArray_Frame doc (partId g) (nth layerIndex (frames g) 0))
    = Some frame ->
  get_Entry doc (startEntry frame) = None ->
  emitted r = [] /\
  cb_state (world r) = cb_state w /\
  completion r = (if strict then Thrown (integrity_error msg) else Returned true) /\
  diagnostics (world r) = (if strict then diagnostics w else diagnostics w ++ [msg]).
Proof.
  intros r msg Hli Hid Hframe Hfirst. subst r msg. unfold iterateEntries.
  destruct (Nat.leb_spec (length (frames g)) layerIndex); [lia|].
  destruct (Z.eqb_spec (nth layerIndex (frames g) 0) 0); [contradiction|].
  rewrite Hframe, Hfirst. unfold report, MUSX_INTEGRITY_ERROR.
  destruct strict; simpl; auto.
Qed.

(* ------------------------------------------------------------------ *)
(** * Traversal of all layers *)
(* ------------------------------------------------------------------ *)

Section AllLayersFacts.

Variable strict : bool.
Variable St : Type.
Variable iterator : EntryInfo -> St -> bool * St.
Variable doc : Document.
Variable fuel : nat.
Variable g : GFrameHold.

Local Abbreviation single := (iterateEntries strict St iterator doc fuel g).
Local Abbreviation layers := (iterateLayers strict St iterator doc fuel g).

Lemma iterateLayers_S (layerIndex remaining : nat) (w : World St) :
  layers layerIndex (S remaining) w =
  match completion (single layerIndex w) with
  | Returned true =>
      let r' := layers (S layerIndex) remaining (world (single layerIndex w)) in
      {| completion := completion r'; world := world r';
         emitted := emitted (single layerIndex w) ++ emitted r'; final := None |}
  | c => {| completion := c; world := world (single layerIndex w);
            emitted := emitted (single layerIndex w); final := None |}
  end.
Proof. reflexivity. Qed.

(** The trace of the layers from [layerIndex] on, cut into one piece per
    layer traversed. *)
Lemma iterateLayers_chunks (remaining : nat) :
  forall layerIndex w,
  exists chunks : list (list Emission),
    emitted (layers layerIndex remaining w) = concat chunks /\
    (length chunks <= remaining)%nat /\
    forall i chunk,
      nth_error chunks i = Some chunk ->
      Forall (fun em => m_layerIndex (info em) = (layerIndex + i)%nat /\
                        nth (layerIndex + i) (frames g) 0 <> 0) chunk.
Proof.
  induction remaining as [|remaining IH]; intros layerIndex w.
  - exists []. split; [reflexivity|]. split; [simpl; lia|].
    intros [|i] chunk Hc; discriminate.
  - rewrite iterateLayers_S.
    assert (Hfirst : Forall (fun em => m_layerIndex (info em) = (layerIndex + 0)%nat /\
                                       nth (layerIndex + 0) (frames g) 0 <> 0)
                            (emitted (single layerIndex w))).
    { apply List.Forall_forall. intros em Hin.
      destruct (iterateEntries_labels strict St iterator doc fuel g layerIndex w em Hin)
        as (Hl & _ & _ & _ & Hid).
      rewrite Nat.add_0_r. auto. }
    destruct (completion (single layerIndex w)) as [[|]| |]; cbn [emitted].
    + destruct (IH (S layerIndex) (world (single layerIndex w)))
        as (chunks & Hem & Hlen & Hall).
      exists (emitted (single layerIndex w) :: chunks).
      split; [simpl; rewrite Hem; reflexivity|]. split; [simpl; lia|].
      intros [|i] chunk Hc; simpl in Hc.
      * injection Hc as <-. assumption.
      * replace (layerIndex + S i)%nat with (S layerIndex + i)%nat by lia.
        apply Hall. assumption.
    + exists [emitted (single layerIndex w)].
      split; [simpl; rewrite app_nil_r; reflexivity|]. split; [simpl; lia|].
      intros [|[|i]] chunk Hc; simpl in Hc; try discriminate.
      injection Hc as <-. assumption.
    + exists [emitted (single layerIndex w)].
      split; [simpl; rewrite app_nil_r; reflexivity|]. split; [simpl; lia|].
      intros [|[|i]] chunk Hc; simpl in Hc; try discriminate.
      injection Hc as <-. assumption.
    + exists [emitted (single layerIndex w)].
      split; [simpl; rewrite app_nil_r; reflexivity|]. split; [simpl; lia|].
      intros [|[|i]] chunk Hc; simpl in Hc; try discriminate.
      injection Hc as <-. assumption.
Qed.

Lemma iterateEntries_refused (layerIndex : nat) (w : World St) :
  (forall i s, fst (iterator i s) = false) ->
  (length (emitted (single layerIndex w)) <= 1)%nat /\
  (emitted (single layerIndex w) <> [] ->
   completion (single layerIndex w) = Returned false).
Proof.
  intros Hno.
  destruct (iterateEntries_cases strict St iterator doc fuel g layerIndex w)
    as [(Hnil & _) | (frame & first & _ & _ & _ & _ & ->)].
  - rewrite Hnil. split; [simpl; lia | intros Hne; contradiction].
  - apply loop_refused. assumption.
Qed.

Lemma iterateLayers_refused (remaining : nat) :
  (forall i s, fst (iterator i s) = false) ->
  forall layerIndex w,
    (length (emitted (layers layerIndex remaining w)) <= 1)%nat /\
    (emitted (layers layerIndex remaining w) <> [] ->
     completion (layers layerIndex remaining w) = Returned false).
Proof.
  intros Hno. induction remaining as [|remaining IH]; intros layerIndex w.
  - split; [simpl; lia | intros Hne; contradiction].
  - rewrite iterateLayers_S.
    destruct (iterateEntries_refused layerIndex w Hno) as (Hlen & Hfalse).
    destruct (completion (single layerIndex w)) as [[|]| |] eqn:Hc; cbn [emitted completion].
    + assert (Hnil : emitted (single layerIndex w) = []).
      { destruct (emitted (single layerIndex w)) as [|em rest]; [reflexivity|].
        assert (Hne : em :: rest <> []) by discriminate.
        specialize (Hfalse Hne). discriminate. }
      rewrite Hnil. apply IH.
    + split; [assumption | reflexivity].
    + split; [assumption|]. intros Hne. specialize (Hfalse Hne). discriminate.
    + split; [assumption|]. intros Hne. specialize (Hfalse Hne). discriminate.
Qed.

End AllLayersFacts.

(** X16: the trace of a traversal of all layers is the concatenation, in
    ascending layer order, of one piece per layer traversed; the entries of
    piece [i] carry layer index [i], and slot [i] holds a frame. *)
Theorem X16_all_layers_in_ascending_order
    (strict : bool) (St : Type) (iterator : EntryInfo -> St -> bool * St)
    (doc : Document) (fuel : nat) (g : GFrameHold) (w : World St) :
  exists chunks : list (list Emission),
    emitted (iterateAllEntries strict St iterator doc fuel g w) = concat chunks /\
    (length chunks <= length (frames g))%nat /\
    forall i chunk,
      nth_error chunks i = Some chunk ->
      Forall (fun em => m_layerIndex (info em) = i /\ nth i (frames g) 0 <> 0) chunk.
Proof.
  destruct (iterateLayers_chunks strict St iterator doc fuel g (length (frames g)) 0%nat w)
    as (chunks & Hem & Hlen & Hall).
  exists chunks. split; [exact Hem|]. split; [exact Hlen|].
  intros i chunk Hc. apply (Hall i chunk Hc).
Qed.

(** X17: with a callback that always answers [false], a traversal of all
    layers invokes it at most once, and returns [false] if it did. *)
Theorem X17_refusing_callback_is_invoked_at_most_once
    (strict : bool) (St : Type) (iterator : EntryInfo -> St -> bool * St)
    (doc : Document) (fuel : nat) (g : GFrameHold) (w : World St) :
  let r := iterateAllEntries strict St iterator doc fuel g w in
  (forall i s, fst (iterator i s) = false) ->
  (length (emitted r) <= 1)%nat /\
  (emitted r <> [] -> completion r = Returned false).
Proof.
  intros r Hno. apply iterateLayers_refused. assumption.
Qed.

(* ------------------------------------------------------------------ *)
(** * FontInfo *)
(* ------------------------------------------------------------------ *)

Lemma find_by_cmper (l : list FontDefinition) (d : FontDefinition) :
  NoDup (map fontDef_cmper l) -> In d l ->
  List.find (fun x => fontDef_cmper x =? fontDef_cmper d) l = Some d.
Proof.
  induction l as [|x l IH]; intros Hnd Hin; [destruct Hin|].
  simpl in Hnd. inversion Hnd as [|k ks Hnot Hnd']; subst.
  simpl. destruct Hin as [->|Hin].
  - rewrite Z.eqb_refl. reflexivity.
  - destruct (Z.eqb_spec (fontDef_cmper x) (fontDef_cmper d)) as [Heq|Hne].
    + exfalso. apply Hnot. rewrite Heq. apply list_elem_of_In.
      apply List.in_map. assumption.
    + apply IH; assumption.
Qed.

(** X19: when the keys of a part's font definitions are distinct, a
    successful [setFontIdByName] makes [getName] return that name; only the
    font id of the object changes. *)
Theorem X19_setFontIdByName_then_getName
    (pool : FontPool) (f f' : FontInfo) (n : string) :
  NoDup (map fontDef_cmper (getArray_FontDefinition pool (fontInfo_partId f))) ->
  FontInfo_setFontIdByName pool f n = Normal f' ->
  FontInfo_getName pool f' = Normal n /\
  f' = with_fontId f (fontId f').
Proof.
  intros Hnd Hset. unfold FontInfo_setFontIdByName in Hset.
  destruct (List.find _ _) as [d|] eqn:Hfind; [|discriminate].
  injection Hset as <-. apply List.find_some in Hfind as [Hin Hname].
  apply String.eqb_eq in Hname. split; [|reflexivity].
  unfold FontInfo_getName, get_FontDefinition. simpl.
  rewrite find_by_cmper by assumption. rewrite Hname. reflexivity.
Qed.

(** X20: [setFontIdByName] throws an invalid-argument error exactly when no
    font definition of the part carries the name; otherwise it takes the
    key of the first one that does, in pool order. *)
Theorem X20_setFontIdByName_fails_iff_name_is_absent
    (pool : FontPool) (f : FontInfo) (n : string) :
  let defs := getArray_FontDefinition pool (fontInfo_partId f) in
  (FontInfo_setFontIdByName pool f n = Threw invalid_argument <->
   forall d, In d defs -> name d <> n) /\
  (forall before d after,
     defs = before ++ d :: after ->
     name d = n -> (forall x, In x before -> name x <> n) ->
     FontInfo_setFontIdByName pool f n = Normal (with_fontId f (fontDef_cmper d))).
Proof.
  intros defs. subst defs. unfold FontInfo_setFontIdByName. split.
  - destruct (List.find _ _) as [d|] eqn:Hfind.
    + split; [discriminate|]. intros Hall. exfalso.
      apply List.find_some in Hfind as [Hin Hname].
      apply String.eqb_eq in Hname. exact (Hall d Hin Hname).
    + split; [|reflexivity]. intros _ d Hin Hname.
      pose proof (List.find_none _ _ Hfind d Hin) as Hno. simpl in Hno.
      apply String.eqb_neq in Hno. contradiction.
  - intros before d after Hdefs Hname Hbefore. rewrite Hdefs. clear Hdefs.
    induction before as [|x before IH]; simpl.
    + apply String.eqb_eq in Hname. rewrite Hname. reflexivity.
    + assert (Hx : name x <> n) by (apply Hbefore; left; reflexivity).
      apply String.eqb_neq in Hx. rewrite Hx. apply IH.
      intros y Hy. apply Hbefore. right. assumption.
Qed.

(* ------------------------------------------------------------------ *)
(** * InstrumentUsed::getStaffAtIndex *)
(* ------------------------------------------------------------------ *)

(** X21: [getStaffAtIndex] returns no staff for an index beyond the size of
    the array and the pool's staff of the item at the index below it; for an
    index equal to the size the guard lets it index the array past its last
    element. *)
Theorem X21_getStaffAtIndex_bounds
    (Staff : Type) (get_Staff : Cmper -> Cmper -> option Staff)
    (iuArray : list InstrumentUsed) (index : nat) :
  ((length iuArray < index)%nat ->
   getStaffAtIndex Staff get_Staff iuArray index = Element None) /\
  (forall iuItem,
     nth_error iuArray index = Some iuItem ->
     getStaffAtIndex Staff get_Staff iuArray index
     = Element (get_Staff (iu_partId iuItem) (staffId iuItem))) /\
  (index = length iuArray ->
   getStaffAtIndex Staff get_Staff iuArray index = PastTheEnd).
Proof.
  unfold getStaffAtIndex. split; [|split].
  - intros Hlt. destruct (Nat.ltb_spec (length iuArray) index); [reflexivity | lia].
  - intros iuItem Hnth.
    assert (Hlt : (index < length iuArray)%nat).
    { apply nth_error_Some. rewrite Hnth. discriminate. }
    destruct (Nat.ltb_spec (length iuArray) index); [lia|].
    rewrite Hnth. reflexivity.
  - intros ->. rewrite Nat.ltb_irrefl.
    assert (Hnone : nth_error iuArray (length iuArray) = None).
    { apply nth_error_None. lia. }
    rewrite Hnone. reflexivity.
Qed.

(* ------------------------------------------------------------------ *)
(** * The further properties on sample data *)
(* ------------------------------------------------------------------ *)

Lemma X2_witness :
  ScoreFileEncoder.is_bytes MoreSamples.gzipHeader /\
  ScoreFileEncoder.cryptBuffer (ScoreFileEncoder.cryptBuffer MoreSamples.gzipHeader)
  = MoreSamples.gzipHeader.
Proof.
  assert (H : ScoreFileEncoder.is_bytes MoreSamples.gzipHeader).
  { unfold ScoreFileEncoder.is_bytes, MoreSamples.gzipHeader.
    repeat (apply List.Forall_cons; [lia|]). apply List.Forall_nil. }
  split; [exact H|].
  exact (X2_cryptBuffer_is_an_involution MoreSamples.gzipHeader H).
Defined.

Lemma X4_witness :
  nth_error MoreSamples.gzipHeader 1 = Some 139 /\
  nth_error (ScoreFileEncoder.cryptBuffer MoreSamples.gzipHeader) 1 =
  Some (Z.lxor 139 (ScoreFileEncoder.keyAt
                      (Z.to_nat (Z.of_nat 1 mod ScoreFileEncoder.RESET_LIMIT)))
        mod 2 ^ 8).
Proof.
  assert (H : nth_error MoreSamples.gzipHeader 1 = Some 139) by reflexivity.
  split; [exact H|].
  exact (X4_cryptBuffer_key_stream_is_periodic MoreSamples.gzipHeader 1 139 H).
Defined.

Lemma X5_witness :
  Z.of_nat (length MoreSamples.zeroBlock) mod ScoreFileEncoder.RESET_LIMIT = 0 /\
  ScoreFileEncoder.cryptBuffer (MoreSamples.zeroBlock ++ MoreSamples.gzipHeader) =
  ScoreFileEncoder.cryptBuffer MoreSamples.zeroBlock ++
  ScoreFileEncoder.cryptBuffer MoreSamples.gzipHeader.
Proof.
  assert (H : Z.of_nat (length MoreSamples.zeroBlock) mod ScoreFileEncoder.RESET_LIMIT = 0).
  { unfold MoreSamples.zeroBlock. rewrite List.repeat_length.
    rewrite Z2Nat.id by (unfold ScoreFileEncoder.RESET_LIMIT; lia). reflexivity. }
  split; [exact H|].
  exact (X5_cryptBuffer_blocks_are_independent MoreSamples.zeroBlock
           MoreSamples.gzipHeader H).
Defined.

Lemma X7_witness :
  (exists noteType,
     calcNoteType MoreSamples.dottedQuarter = Normal noteType /\
     noteType = 2 ^ Z.log2 (duration MoreSamples.dottedQuarter) /\
     noteType <= duration MoreSamples.dottedQuarter < 2 * noteType /\
     2 <= noteType <= 32768) /\
  calcNoteType MoreSamples.durationless = Threw invalid_argument.
Proof.
  split.
  - apply (proj1 (X7_calcNoteType_is_the_top_bit MoreSamples.dottedQuarter)).
    simpl. lia.
  - apply (proj2 (X7_calcNoteType_is_the_top_bit MoreSamples.durationless)).
    left. simpl. lia.
Defined.

Lemma X8_witness :
  1 < duration MoreSamples.dottedQuarter < 65536 /\
  exists d,
    calcAugmentationDots MoreSamples.dottedQuarter = Normal d /\
    0 <= d <= Z.log2 (duration MoreSamples.dottedQuarter) /\
    (forall i, Z.log2 (duration MoreSamples.dottedQuarter) - d <= i
               < Z.log2 (duration MoreSamples.dottedQuarter) ->
               Z.testbit (duration MoreSamples.dottedQuarter) i = true) /\
    (d < Z.log2 (duration MoreSamples.dottedQuarter) ->
     Z.testbit (duration MoreSamples.dottedQuarter)
       (Z.log2 (duration MoreSamples.dottedQuarter) - d - 1) = false).
Proof.
  assert (H : 1 < duration MoreSamples.dottedQuarter < 65536) by (simpl; lia).
  split; [exact H|].
  exact (X8_calcAugmentationDots_counts_bits_below_the_top MoreSamples.dottedQuarter H).
Defined.

Lemma X9_witness :
  duration MoreSamples.dottedQuarter = 2 ^ (10 + 1) - 2 ^ (10 - 1) /\
  calcNoteType MoreSamples.dottedQuarter = Normal (2 ^ 10) /\
  calcAugmentationDots MoreSamples.dottedQuarter = Normal 1.
Proof.
  assert (H : duration MoreSamples.dottedQuarter = 2 ^ (10 + 1) - 2 ^ (10 - 1))
    by reflexivity.
  split; [exact H|].
  apply (X9_dotted_durations_are_recognised MoreSamples.dottedQuarter 10 1);
    [lia | lia | exact H].
Defined.

Lemma X10_witness :
  let em := Samples.invocation (MoreSamples.layerRun 2) 0 in
  In em (emitted (MoreSamples.layerRun 2)) /\
  m_layerIndex (info em) = 2%nat /\
  m_staff (info em) = 2 /\ m_measure (info em) = 9 /\
  (2 < length (frames MoreSamples.twoLayerHolder))%nat /\
  nth 2 (frames MoreSamples.twoLayerHolder) 0 <> 0.
Proof.
  intros em.
  assert (Hin : In em (emitted (MoreSamples.layerRun 2))).
  { vm_compute. left. reflexivity. }
  split; [exact Hin|].
  exact (X10_entries_carry_the_layer_asked_for false nat Samples.counting
           MoreSamples.twoLayers 10 MoreSamples.twoLayerHolder 2%nat Samples.fresh em Hin).
Defined.

Lemma X12_witness :
  let r := MoreSamples.stoppedRun in
  (emitted r = [] ++ Samples.invocation r 0 :: [Samples.invocation r 1] /\
   fst (MoreSamples.twoOnly (info (Samples.invocation r 0))
          (stateAfter nat MoreSamples.twoOnly [] (cb_state Samples.fresh))) = true) /\
  (completion r = Returned false /\
   exists pre em,
     emitted r = pre ++ [em] /\
     fst (MoreSamples.twoOnly (info em)
            (stateAfter nat MoreSamples.twoOnly pre (cb_state Samples.fresh))) = false).
Proof.
  intros r. split.
  - assert (Hem : emitted r = [] ++ Samples.invocation r 0 :: [Samples.invocation r 1])
      by (vm_compute; reflexivity).
    assert (Hpost : [Samples.invocation r 1] <> []) by discriminate.
    split; [exact Hem|].
    exact (proj1 (X12_callback_false_halts_the_traversal false nat MoreSamples.twoOnly
                    Samples.nested 10 Samples.holder 0%nat Samples.fresh) _ _ _ Hem Hpost).
  - assert (Hc : completion r = Returned false) by (vm_compute; reflexivity).
    split; [exact Hc|].
    exact (proj2 (X12_callback_false_halts_the_traversal false nat MoreSamples.twoOnly
                    Samples.nested 10 Samples.holder 0%nat Samples.fresh) Hc).
Defined.

Lemma X13_witness :
  diagnostics (world (Samples.run true Samples.dangling)) = diagnostics Samples.fresh /\
  (forall msg, completion (Samples.run false Samples.dangling)
               <> Thrown (integrity_error msg)) /\
  exists extra,
    diagnostics (world (Samples.run false Samples.dangling))
    = diagnostics Samples.fresh ++ extra /\ (length extra <= 1)%nat.
Proof.
  split.
  - exact (proj1 (X13_strict_throws_default_logs true nat Samples.counting
                    Samples.dangling 10 Samples.holder 0%nat Samples.fresh) eq_refl).
  - exact (proj2 (X13_strict_throws_default_logs false nat Samples.counting
                    Samples.dangling 10 Samples.holder 0%nat Samples.fresh) eq_refl).
Defined.

Lemma X14_witness :
  let r := Samples.run false Samples.nested in
  findStartFrame (getArray_Frame Samples.nested 0 7) = Some (Samples.primary 1 4) /\
  get_Entry Samples.nested 1 = Some (m_entry (info (Samples.invocation r 0))) /\
  m_next (m_entry (info (Samples.invocation r 0))) <> 0 /\
  get_Entry Samples.nested (m_next (m_entry (info (Samples.invocation r 0))))
  = Some (m_entry (info (Samples.invocation r 1))).
Proof.
  intros r.
  assert (Hframe : findStartFrame (getArray_Frame Samples.nested 0 7)
                   = Some (Samples.primary 1 4)) by reflexivity.
  assert (Hhead : emitted r = Samples.invocation r 0 :: tl (emitted r))
    by (vm_compute; reflexivity).
  assert (Hpair : emitted r = [] ++ Samples.invocation r 0 :: Samples.invocation r 1
                                 :: [Samples.invocation r 2; Samples.invocation r 3])
    by (vm_compute; reflexivity).
  destruct (X14_entries_follow_the_next_chain false nat Samples.counting Samples.nested
              10 Samples.holder 0%nat Samples.fresh (Samples.primary 1 4) Hframe)
    as (Hfirst & Hchain).
  split; [exact Hframe|]. split; [exact (Hfirst _ _ Hhead)|].
  exact (Hchain _ _ _ _ Hpair).
Defined.

Lemma X15_witness :
  let r strict := iterateEntries strict nat Samples.counting MoreSamples.entryless 10
                    MoreSamples.entrylessHolder 0%nat Samples.fresh in
  let msg := GFrameHoldNotIterable 3 915 in
  get_Entry MoreSamples.entryless 1 = None /\
  (emitted (r true) = [] /\ cb_state (world (r true)) = O /\
   completion (r true) = Thrown (integrity_error msg) /\
   diagnostics (world (r true)) = []) /\
  (emitted (r false) = [] /\ cb_state (world (r false)) = O /\
   completion (r false) = Returned true /\
   diagnostics (world (r false)) = [msg]).
Proof.
  intros r msg.
  assert (Hli : (0 < length (frames MoreSamples.entrylessHolder))%nat) by (simpl; lia).
  assert (Hid : nth 0 (frames MoreSamples.entrylessHolder) 0 <> 0) by discriminate.
  assert (Hnone : get_Entry MoreSamples.entryless 1 = None) by reflexivity.
  split; [exact Hnone|]. split.
  - exact (X15_missing_start_entry_is_not_iterable true nat Samples.counting
             MoreSamples.entryless 10 MoreSamples.entrylessHolder 0%nat Samples.fresh
             (Samples.primary 1 2) Hli Hid eq_refl Hnone).
  - exact (X15_missing_start_entry_is_not_iterable false nat Samples.counting
             MoreSamples.entryless 10 MoreSamples.entrylessHolder 0%nat Samples.fresh
             (Samples.primary 1 2) Hli Hid eq_refl Hnone).
Defined.

Lemma X16_witness :
  map (fun em => m_layerIndex (info em))
      (emitted (iterateAllEntries false nat Samples.counting MoreSamples.twoLayers 10
                  MoreSamples.twoLayerHolder Samples.fresh))
  = [0; 0; 2]%nat /\
  exists chunks : list (list Emission),
    emitted (iterateAllEntries false nat Samples.counting MoreSamples.twoLayers 10
               MoreSamples.twoLayerHolder Samples.fresh) = concat chunks /\
    (length chunks <= length (frames MoreSamples.twoLayerHolder))%nat /\
    forall i chunk,
      nth_error chunks i = Some chunk ->
      Forall (fun em => m_layerIndex (info em) = i /\
                        nth i (frames MoreSamples.twoLayerHolder) 0 <> 0) chunk.
Proof.
  split; [vm_compute; reflexivity|].
  exact (X16_all_layers_in_ascending_order false nat Samples.counting
           MoreSamples.twoLayers 10 MoreSamples.twoLayerHolder Samples.fresh).
Defined.

Lemma X17_witness :
  let r := iterateAllEntries false nat MoreSamples.refusing MoreSamples.twoLayers 10
             MoreSamples.twoLayerHolder Samples.fresh in
  emitted r <> [] /\
  (length (emitted r) <= 1)%nat /\
  completion r = Returned false.
Proof.
  intros r.
  assert (Hno : forall i s, fst (MoreSamples.refusing i s) = false) by reflexivity.
  assert (Hne : emitted r <> []) by (vm_compute; discriminate).
  destruct (X17_refusing_callback_is_invoked_at_most_once false nat MoreSamples.refusing
              MoreSamples.twoLayers 10 MoreSamples.twoLayerHolder Samples.fresh Hno)
    as (Hlen & Hfalse).
  split; [exact Hne|]. split; [exact Hlen | exact (Hfalse Hne)].
Defined.

Lemma X19_witness :
  let f' := with_fontId MoreSamples.plainFont 2 in
  FontInfo_setFontIdByName MoreSamples.fonts MoreSamples.plainFont "Times New Roman"
  = Normal f' /\
  FontInfo_getName MoreSamples.fonts f' = Normal "Times New Roman"%string /\
  f' = with_fontId MoreSamples.plainFont (fontId f').
Proof.
  intros f'.
  assert (Hnd : NoDup (map fontDef_cmper
                         (getArray_FontDefinition MoreSamples.fonts
                            (fontInfo_partId MoreSamples.plainFont)))).
  { apply (bool_decide_unpack _). vm_compute. exact I. }
  assert (Hset : FontInfo_setFontIdByName MoreSamples.fonts MoreSamples.plainFont
                   "Times New Roman" = Normal f') by (vm_compute; reflexivity).
  split; [exact Hset|].
  exact (X19_setFontIdByName_then_getName MoreSamples.fonts MoreSamples.plainFont f'
           "Times New Roman" Hnd Hset).
Defined.

Lemma X20_witness :
  FontInfo_setFontIdByName MoreSamples.fonts MoreSamples.plainFont "Helvetica"
  = Threw invalid_argument /\
  FontInfo_setFontIdByName MoreSamples.fonts MoreSamples.plainFont "Maestro"
  = Normal (with_fontId MoreSamples.plainFont 1).
Proof.
  split.
  - apply (proj1 (X20_setFontIdByName_fails_iff_name_is_absent MoreSamples.fonts
                    MoreSamples.plainFont "Helvetica")).
    intros d Hin.
    destruct Hin as [<-|[<-|[<-|[]]]]; discriminate.
  - apply (proj2 (X20_setFontIdByName_fails_iff_name_is_absent MoreSamples.fonts
                    MoreSamples.plainFont "Maestro")
             [] (MoreSamples.font 1 "Maestro")
             [MoreSamples.font 2 "Times New Roman"; MoreSamples.font 3 "Maestro"]).
    + reflexivity.
    + reflexivity.
    + intros x [].
Defined.

Lemma X21_witness :
  getStaffAtIndex Z MoreSamples.staffNumbered MoreSamples.instruments 5 = Element None /\
  getStaffAtIndex Z MoreSamples.staffNumbered MoreSamples.instruments 1
  = Element (Some 2) /\
  getStaffAtIndex Z MoreSamples.staffNumbered MoreSamples.instruments 3 = PastTheEnd.
Proof.
  split; [|split].
  - apply (proj1 (X21_getStaffAtIndex_bounds Z MoreSamples.staffNumbered
                    MoreSamples.instruments 5)). simpl. lia.
  - apply (proj1 (proj2 (X21_getStaffAtIndex_bounds Z MoreSamples.staffNumbered
                           MoreSamples.instruments 1))
             {| iu_partId := 0; staffId := 2 |}). reflexivity.
  - apply (proj2 (proj2 (X21_getStaffAtIndex_bounds Z MoreSamples.staffNumbered
                           MoreSamples.instruments 3))). reflexivity.
Defined.

Lemma X22_witness :
  let r := Samples.run false Samples.nested in
  emitted r = [Samples.invocation r 0] ++ Samples.invocation r 1
                :: [Samples.invocation r 2; Samples.invocation r 3] /\
  (elapsedDuration (info (Samples.invocation r 1))
   == Qsum (map (fun f => inject_Z (startTime f) / inject_Z NoteType_Whole)
                (getArray_Frame Samples.nested 0%Z 7%Z))
      + Qsum (map (fun x => actualDuration (info x)) [Samples.invocation r 0]))%Q.
Proof.
  intros r.
  assert (Hem : emitted r = [Samples.invocation r 0] ++ Samples.invocation r 1
                  :: [Samples.invocation r 2; Samples.invocation r 3])
    by (vm_compute; reflexivity).
  split; [exact Hem|].
  exact (X22_elapsed_is_preroll_plus_earlier_actual_durations false nat Samples.counting
           Samples.nested 10 Samples.holder 0%nat Samples.fresh _ _ _ Hem).
Defined.
